(** * WebVulnScanner (vuln_scanner.py): a Rocq model and its properties

    The development embeds [vuln_scanner.py] shallowly:

    - Python [str] values are [string]s, Python [int]s are [Z];
    - the finding dictionaries are association lists in insertion order;
    - [requests.get] is an environment function (a section variable);
    - [robust_get], the keyword test and the per-CVE classification are
      pure functions;
    - [WebVulnScanner.run], with the worker threads that
      [check_common_paths] starts, is a transition system: one step of
      the main thread or of one worker at a time;
    - [json.dump] / [json.load] are a printer and a parser on strings. *)

From Stdlib Require Import ZArith Ascii String List Lia.
From stdpp Require Import base list strings pretty gmap relations.


(** ** Python strings *)

Module PyStr.

(** [p] is a prefix of [s] ([s.startswith(p)]). *)
Fixpoint startswith (p s : string) : bool :=
  match p, s with
  | EmptyString, _ => true
  | String a p', String b s' => bool_decide (a = b) && startswith p' s'
  | String _ _, EmptyString => false
  end.

(** [kw in s] for two Python strings: [kw] occurs in [s] as a contiguous
    run of characters. *)
Fixpoint contains (kw s : string) : bool :=
  startswith kw s ||
  match s with
  | EmptyString => false
  | String _ s' => contains kw s'
  end.

(** [s.rstrip(c)] for a one-character argument: every trailing [c] goes. *)
Fixpoint rstrip (c : ascii) (s : string) : string :=
  match s with
  | EmptyString => EmptyString
  | String a s' =>
      match rstrip c s' with
      | EmptyString => if bool_decide (a = c) then EmptyString else String a EmptyString
      | r => String a r
      end
  end.

(** [c * n]: the character [c] repeated [n] times. *)
Fixpoint replicate (n : nat) (c : ascii) : string :=
  match n with
  | O => EmptyString
  | S n' => String c (replicate n' c)
  end.

(** The last character of a string, if any. *)
Fixpoint last (s : string) : option ascii :=
  match s with
  | EmptyString => None
  | String a EmptyString => Some a
  | String _ s' => last s'
  end.

(** Truth value of an optional string: [None] and [''] are false. *)
Definition truthy (o : option string) : bool :=
  match o with
  | None => false
  | Some EmptyString => false
  | Some _ => true
  end.

Lemma app_cons (a : ascii) (s t : string) :
  String a s +:+ t = String a (s +:+ t).
Proof. reflexivity. Qed.

Lemma app_nil_l (s : string) : "" +:+ s = s.
Proof. reflexivity. Qed.

Lemma app_nil_r (s : string) : s +:+ "" = s.
Proof. induction s as [|a s IH]; [done|]. by rewrite app_cons, IH. Qed.

Lemma app_assoc (s t u : string) : (s +:+ t) +:+ u = s +:+ t +:+ u.
Proof. induction s as [|a s IH]; [done|]. by rewrite !app_cons, IH. Qed.

Lemma startswith_spec (p s : string) :
  startswith p s = true ↔ ∃ post, s = p +:+ post.
Proof.
  revert s. induction p as [|a p IH]; intros s; simpl.
  - split; [intros _; by exists s|done].
  - destruct s as [|b s].
    + split; [done|intros [post H]; discriminate H].
    + rewrite andb_true_iff, bool_decide_eq_true, IH. split.
      * intros [-> [post ->]]. by exists post.
      * intros [post H]. rewrite app_cons in H. injection H as -> ->. eauto.
Qed.

Lemma contains_spec (kw s : string) :
  contains kw s = true ↔ ∃ pre post, s = pre +:+ kw +:+ post.
Proof.
  induction s as [|b s IH]; simpl; rewrite orb_true_iff, startswith_spec.
  - split.
    + intros [[post H]|H]; [|done]. by exists "", post.
    + intros (pre & post & H). left.
      destruct pre; [by exists post|discriminate H].
  - rewrite IH. split.
    + intros [[post H]|(pre & post & ->)].
      * by exists "", post.
      * by exists (String b pre), post.
    + intros (pre & post & H). destruct pre as [|c pre].
      * left. by exists post.
      * right. rewrite app_cons in H. injection H as -> ->. by exists pre, post.
Qed.

Lemma rstrip_replicate (c : ascii) (m : nat) : rstrip c (replicate m c) = "".
Proof.
  induction m as [|m IHm]; simpl; [done|].
  rewrite IHm. by rewrite bool_decide_eq_true_2.
Qed.

Lemma rstrip_nil_inv (c : ascii) (s : string) :
  rstrip c s = "" → ∃ n, s = replicate n c.
Proof.
  induction s as [|a s IH]; simpl; [by exists 0%nat|].
  destruct (rstrip c s) eqn:E; [|done].
  case_bool_decide as Ha; [|done]. intros _.
  destruct IH as [n ->]; [done|]. subst a. by exists (S n).
Qed.

Lemma rstrip_decompose (c : ascii) (s : string) :
  ∃ n, s = rstrip c s +:+ replicate n c.
Proof.
  induction s as [|a s IH]; simpl; [by exists 0%nat|].
  destruct (rstrip c s) as [|b r] eqn:E.
  - destruct (rstrip_nil_inv c s E) as [n ->].
    case_bool_decide as Ha.
    + subst a. by exists (S n).
    + exists n. by rewrite app_cons, app_nil_l.
  - destruct IH as [n IH]. exists n. rewrite app_cons. by rewrite IH at 1.
Qed.

Lemma rstrip_last (c : ascii) (s : string) : last (rstrip c s) ≠ Some c.
Proof.
  induction s as [|a s IH]; simpl; [done|].
  destruct (rstrip c s) as [|b r] eqn:E.
  - case_bool_decide as Ha; simpl; [done|]. by intros [= ->].
  - exact IH.
Qed.

(** [rstrip] is the only way to split off a block of trailing [c]s that
    leaves no trailing [c] behind. *)
Lemma rstrip_unique (c : ascii) (t : string) (n : nat) :
  last t ≠ Some c → rstrip c (t +:+ replicate n c) = t.
Proof.
  induction t as [|a t IH]; intros Hl; [apply rstrip_replicate|].
  rewrite app_cons. simpl rstrip. destruct t as [|b t].
  - rewrite app_nil_l, rstrip_replicate. rewrite bool_decide_eq_false_2; [done|].
    intros ->. by apply Hl.
  - rewrite IH; [done|]. exact Hl.
Qed.

End PyStr.

(** ** The HTTP client ([requests]) *)

(** What the scanner reads of a [requests.Response]. *)
Record Response := { status_code : Z; text : string }.

(** Exceptions, by whether [except requests.exceptions.RequestException]
    catches them.  Connection errors, DNS failures, timeouts and TLS
    failures are [requests] exceptions of that family. *)
Inductive exn :=
| RequestException (msg : string)
| OtherException (msg : string).

(** How a call ends. *)
Inductive completion (A : Type) :=
| Returns (a : A)
| Raises (e : exn).
Arguments Returns {A} a.
Arguments Raises {A} e.

(** [bool(resp)] for a [requests.Response] is [resp.ok]: false exactly
    when [raise_for_status] would raise, that is for 400 <= status < 600. *)
Definition Response_bool (r : Response) : bool :=
  negb ((400 <=? status_code r)%Z && (status_code r <? 600)%Z).

(** Truth value of the result of [robust_get]: [None] is false. *)
Definition resp_truth (resp : option Response) : bool :=
  match resp with
  | None => false
  | Some r => Response_bool r
  end.

(** The condition [resp and resp.status_code == 200]. *)
Definition resp_and_200 (resp : option Response) : bool :=
  match resp with
  | None => false
  | Some r => Response_bool r && (status_code r =? 200)%Z
  end.

(** ** Python dictionaries with string keys, in insertion order *)

(** [d[k]] *)
Fixpoint getitem {A : Type} (k : string) (d : list (string * A)) : option A :=
  match d with
  | [] => None
  | (k', v) :: d' => if bool_decide (k' = k) then Some v else getitem k d'
  end.

(** [d[k] = v]: an existing key keeps its place, a new key goes last. *)
Fixpoint setitem {A : Type} (k : string) (v : A) (d : list (string * A))
  : list (string * A) :=
  match d with
  | [] => [(k, v)]
  | (k', v') :: d' =>
      if bool_decide (k' = k) then (k, v) :: d' else (k', v') :: setitem k v d'
  end.

(** The finding dictionaries: string keys, string values. *)
Definition pydict := list (string * string).

(** ** The static tables *)

Record cve_meta := { path : string; keyword : option string }.

Definition CVE_PATHS : list (string * cve_meta) :=
  [ ("CVE-2017-5638",
      {| path := "/struts2-showcase/index.action"; keyword := Some "Apache" |});
    ("CVE-2019-19781",
      {| path := "/vpn/../vpns/"; keyword := None |});
    ("CVE-2021-41773",
      {| path := "/cgi-bin/.%2e/%2e%2e/%2e%2e/%2e%2e/etc/passwd";
         keyword := Some "root:" |}) ].

Definition COMMON_PATHS : list string :=
  [ "/admin"; "/login"; "/.git"; "/.env"; "/config"; "/phpinfo.php";
    "/test"; "/backup"; "/.DS_Store" ].

(** ** [robust_get] *)

Section Probe.

(** [requests.get(url, timeout=timeout, verify=False, allow_redirects=True)].
    The first argument counts the requests sent before this one, so the
    same URL may be answered differently at different times. *)
Variable requests_get : nat → string → Z → completion Response.

(** The result of [robust_get] and the lines it printed. *)
Definition robust_get (now : nat) (url : string) (timeout : Z)
  : completion (option Response) * list string :=
  match requests_get now url timeout with
  | Returns resp => (Returns (Some resp), [])
  | Raises (RequestException e) =>
      (Returns None, ["[Error] GET request failed for " +:+ url +:+ ": " +:+ e])
  | Raises (OtherException e) => (Raises (OtherException e), [])
  end.

End Probe.

(** ** One iteration of the loop of [check_cve_signatures] *)

(** The dictionary [finding] as the iteration first builds it. *)
Definition cve_finding_init (cve url : string) : pydict :=
  [ ("type", "cve_test"); ("cve", cve); ("url", url);
    ("status", "not_detected"); ("details", "") ].

(** The exposed-path dictionary of [check_common_paths]. *)
Definition exposed_path_finding (url : string) : pydict :=
  [ ("type", "exposed_path"); ("url", url) ].

(** What the iteration leaves behind: the final value of [finding],
    whether it was appended to [self.findings], and the line printed. *)
Record cve_outcome := {
  co_finding : pydict;
  co_appended : bool;
  co_printed : string
}.

Definition cve_classify (cve : string) (meta : cve_meta) (url : string)
    (resp : option Response) : cve_outcome :=
  let finding := cve_finding_init cve url in
  let possibly :=
    {| co_finding := setitem "status" "possibly_detected" finding;
       co_appended := true;
       co_printed := "[CVE] " +:+ cve +:+ " possibly detected: " +:+ url |} in
  let failed :=
    {| co_finding := finding;
       co_appended := false;
       co_printed := "[Warn] " +:+ cve +:+ " scan failed: " +:+ url |} in
  match resp with
  | Some r =>
      (* if resp and resp.status_code == 200: *)
      if Response_bool r && (status_code r =? 200)%Z then
        (* if meta['keyword']: *)
        match keyword meta with
        | Some kw =>
            if PyStr.truthy (Some kw) then
              if PyStr.contains kw (text r) then
                {| co_finding :=
                     setitem "details" "Keyword matched in response."
                       (setitem "status" "likely_present" finding);
                   co_appended := true;
                   co_printed := "[CVE] " +:+ cve +:+ " likely present: " +:+ url |}
              else
                {| co_finding := finding;
                   co_appended := false;
                   co_printed := "[OK] " +:+ cve
                                 +:+ " not detected, keyword not found @ " +:+ url |}
            else possibly
        | None => possibly
        end
      (* elif resp: *)
      else if Response_bool r then
        {| co_finding := finding;
           co_appended := false;
           co_printed := "[OK] " +:+ cve +:+ " not detected, " +:+ url
                         +:+ " (HTTP " +:+ pretty (status_code r) +:+ ")" |}
      else failed
  | None => failed
  end.

(** The classification of the task: the value of [finding['status']]
    when the iteration ends. *)
Definition cve_status (cve : string) (meta : cve_meta) (url : string)
    (resp : option Response) : option string :=
  getitem "status" (co_finding (cve_classify cve meta url resp)).

(** ** [json.dumps(obj, indent=2)] and [json.loads] *)

Module Json.

(** The Python objects the scanner serialises: strings, lists and
    dictionaries with string keys. *)
Local Unset Elimination Schemes.
Inductive pyobj :=
| PStr (s : string)
| PList (l : list pyobj)
| PDict (d : list (string * pyobj)).
Local Set Elimination Schemes.

Definition dquote : ascii := ascii_of_nat 34.
Definition backslash : ascii := ascii_of_nat 92.
Definition newline : ascii := ascii_of_nat 10.
Definition space : ascii := ascii_of_nat 32.

(** One lowercase hexadecimal digit. *)
Definition hex_digit (n : N) : ascii :=
  if (n <? 10)%N then ascii_of_N (48 + n) else ascii_of_N (87 + n).

(** [py_encode_basestring_ascii] on one character: the short escapes of
    [ESCAPE_DCT], printable ASCII as it is, everything else as
    [\uXXXX]. *)
Definition escape_char (c : ascii) : string :=
  let n := N_of_ascii c in
  if (n =? 34)%N then String backslash (String dquote EmptyString)
  else if (n =? 92)%N then String backslash (String backslash EmptyString)
  else if (n =? 8)%N then String backslash "b"
  else if (n =? 12)%N then String backslash "f"
  else if (n =? 10)%N then String backslash "n"
  else if (n =? 13)%N then String backslash "r"
  else if (n =? 9)%N then String backslash "t"
  else if (32 <=? n)%N && (n <=? 126)%N then String c EmptyString
  else String backslash
         ("u00" +:+ String (hex_digit (n / 16))
                      (String (hex_digit (n mod 16)) EmptyString)).

Fixpoint escape (s : string) : string :=
  match s with
  | EmptyString => EmptyString
  | String c s' => escape_char c +:+ escape s'
  end.

(** A string literal: the escaped text between double quotes. *)
Definition encode_string (s : string) : string :=
  String dquote (escape s +:+ String dquote EmptyString).

(** The line break and indentation before an item at nesting [level]. *)
Definition newline_indent (level : nat) : string :=
  String newline (PyStr.replicate (2 * level) space).

(** The items of a non-empty list after the first one, up to the closing
    bracket, and the members of a dictionary likewise; [enc] writes a value
    one level deeper. *)
Definition encode_items (enc : pyobj → string) (level : nat)
  : list pyobj → string :=
  fix go (l : list pyobj) : string :=
    match l with
    | [] => newline_indent level +:+ "]"
    | y :: l' => "," +:+ newline_indent (S level) +:+ enc y +:+ go l'
    end.

Definition encode_members (enc : pyobj → string) (level : nat)
  : list (string * pyobj) → string :=
  fix go (l : list (string * pyobj)) : string :=
    match l with
    | [] => newline_indent level +:+ "}"
    | kv :: l' =>
        "," +:+ newline_indent (S level) +:+ encode_string kv.1 +:+ ": "
        +:+ enc kv.2 +:+ go l'
    end.

(** [json.dumps(o, indent=2)], at nesting [level]. *)
Fixpoint encode (level : nat) (o : pyobj) : string :=
  match o with
  | PStr s => encode_string s
  | PList [] => "[]"
  | PList (x :: xs) =>
      "[" +:+ newline_indent (S level) +:+ encode (S level) x
      +:+ encode_items (encode (S level)) level xs
  | PDict [] => "{}"
  | PDict (kv :: d) =>
      "{" +:+ newline_indent (S level) +:+ encode_string kv.1 +:+ ": "
      +:+ encode (S level) kv.2
      +:+ encode_members (encode (S level)) level d
  end.

Definition dumps (o : pyobj) : string := encode 0 o.

(** A finding dictionary and the findings list as Python objects. *)
Definition of_dict (d : pydict) : pyobj :=
  PDict (map (λ kv, (kv.1, PStr kv.2)) d).

Definition of_findings (fs : list pydict) : pyobj :=
  PList (map of_dict fs).

(** *** [json.loads] *)

(** The whitespace the decoder skips. *)
Definition is_ws (c : ascii) : bool :=
  let n := N_of_ascii c in
  (n =? 32)%N || (n =? 9)%N || (n =? 10)%N || (n =? 13)%N.

Fixpoint skip_ws (s : string) : string :=
  match s with
  | EmptyString => EmptyString
  | String c s' => if is_ws c then skip_ws s' else s
  end.

(** The value of a hexadecimal digit, in either case. *)
Definition hex_value (c : ascii) : option N :=
  let n := N_of_ascii c in
  if (48 <=? n)%N && (n <=? 57)%N then Some (n - 48)%N
  else if (97 <=? n)%N && (n <=? 102)%N then Some (n - 87)%N
  else if (65 <=? n)%N && (n <=? 70)%N then Some (n - 55)%N
  else None.

Definition hex4 (a b c d : ascii) : option N :=
  match hex_value a, hex_value b, hex_value c, hex_value d with
  | Some x, Some y, Some z, Some w => Some (((x * 16 + y) * 16 + z) * 16 + w)%N
  | _, _, _, _ => None
  end.

(** The character behind a one-letter escape (the table [BACKSLASH]). *)
Definition unescape (c : ascii) : option ascii :=
  let n := N_of_ascii c in
  if (n =? 34)%N then Some dquote
  else if (n =? 92)%N then Some backslash
  else if (n =? 47)%N then Some (ascii_of_nat 47)
  else if (n =? 98)%N then Some (ascii_of_nat 8)
  else if (n =? 102)%N then Some (ascii_of_nat 12)
  else if (n =? 110)%N then Some newline
  else if (n =? 114)%N then Some (ascii_of_nat 13)
  else if (n =? 116)%N then Some (ascii_of_nat 9)
  else None.

Definition prepend (c : ascii) (r : option (string * string))
  : option (string * string) :=
  match r with
  | Some (t, rest) => Some (String c t, rest)
  | None => None
  end.

(** [py_scanstring] in strict mode, from just after the opening quote:
    the decoded text and what follows the closing quote.  Characters are
    code points below 256 here, so a [\\uXXXX] above that has no value in
    this model. *)
Fixpoint scanstring (s : string) : option (string * string) :=
  match s with
  | EmptyString => None
  | String c s1 =>
      if (N_of_ascii c =? 34)%N then Some (EmptyString, s1)
      else if (N_of_ascii c =? 92)%N then
        match s1 with
        | EmptyString => None
        | String e s2 =>
            if (N_of_ascii e =? 117)%N then
              match s2 with
              | String h1 (String h2 (String h3 (String h4 s3))) =>
                  match hex4 h1 h2 h3 h4 with
                  | Some n =>
                      if (n <? 256)%N then prepend (ascii_of_N n) (scanstring s3)
                      else None
                  | None => None
                  end
              | _ => None
              end
            else
              match unescape e with
              | Some c' => prepend c' (scanstring s2)
              | None => None
              end
        end
      else if (N_of_ascii c <? 32)%N then None
      else prepend c (scanstring s1)
  end.

(** [dict(pairs)]: a repeated key keeps its first place and its last value. *)
Definition dict_of_pairs (l : list (string * pyobj)) : list (string * pyobj) :=
  fold_left (λ d kv, setitem kv.1 kv.2 d) l [].

(** [scan_once], [JSONArray] and [JSONObject], one round each.  A value
    is a string, an array or an object; the items of a non-empty array are
    read up to its [']'], the members of a non-empty object up to its
    ['}'].  Numbers and the literals [null], [true], [false] have no
    [pyobj] and are not read. *)
Definition value_step
    (items : string → option (list pyobj * string))
    (members : string → option (list (string * pyobj) * string))
    (s : string) : option (pyobj * string) :=
  match s with
  | EmptyString => None
  | String c s1 =>
      if (N_of_ascii c =? 34)%N then
        match scanstring s1 with
        | Some (t, r) => Some (PStr t, r)
        | None => None
        end
      else if (N_of_ascii c =? 91)%N then
        match skip_ws s1 with
        | EmptyString => None
        | String c2 r as s2 =>
            if (N_of_ascii c2 =? 93)%N then Some (PList [], r)
            else
              match items s2 with
              | Some (l, r') => Some (PList l, r')
              | None => None
              end
        end
      else if (N_of_ascii c =? 123)%N then
        match skip_ws s1 with
        | EmptyString => None
        | String c2 r as s2 =>
            if (N_of_ascii c2 =? 125)%N then Some (PDict [], r)
            else
              match members s2 with
              | Some (l, r') => Some (PDict (dict_of_pairs l), r')
              | None => None
              end
        end
      else None
  end.

Definition items_step
    (value : string → option (pyobj * string))
    (items : string → option (list pyobj * string))
    (s : string) : option (list pyobj * string) :=
  match value s with
  | Some (v, r) =>
      match skip_ws r with
      | EmptyString => None
      | String c r1 =>
          if (N_of_ascii c =? 93)%N then Some ([v], r1)
          else if (N_of_ascii c =? 44)%N then
            match items (skip_ws r1) with
            | Some (l, r2) => Some (v :: l, r2)
            | None => None
            end
          else None
      end
  | None => None
  end.

Definition members_step
    (value : string → option (pyobj * string))
    (members : string → option (list (string * pyobj) * string))
    (s : string) : option (list (string * pyobj) * string) :=
  match s with
  | EmptyString => None
  | String c s1 =>
      if (N_of_ascii c =? 34)%N then
        match scanstring s1 with
        | Some (k, r) =>
            match skip_ws r with
            | EmptyString => None
            | String c1 r1 =>
                if (N_of_ascii c1 =? 58)%N then
                  match value (skip_ws r1) with
                  | Some (v, r2) =>
                      match skip_ws r2 with
                      | EmptyString => None
                      | String c2 r3 =>
                          if (N_of_ascii c2 =? 125)%N then Some ([(k, v)], r3)
                          else if (N_of_ascii c2 =? 44)%N then
                            match members (skip_ws r3) with
                            | Some (l, r4) => Some ((k, v) :: l, r4)
                            | None => None
                            end
                          else None
                      end
                  | None => None
                  end
                else None
            end
        | None => None
        end
      else None
  end.

(** The decoder, with a bound on the rounds. *)
Fixpoint parse (fuel : nat) (s : string) : option (pyobj * string) :=
  match fuel with
  | O => None
  | S fuel' => value_step (parse_items fuel') (parse_members fuel') s
  end
with parse_items (fuel : nat) (s : string) : option (list pyobj * string) :=
  match fuel with
  | O => None
  | S fuel' => items_step (parse fuel') (parse_items fuel') s
  end
with parse_members (fuel : nat) (s : string)
  : option (list (string * pyobj) * string) :=
  match fuel with
  | O => None
  | S fuel' => members_step (parse fuel') (parse_members fuel') s
  end.

(** [json.loads]: one value, with whitespace allowed around it.  A value
    never needs more than two rounds of the parser per character. *)
Definition loads (s : string) : option pyobj :=
  match parse (2 * String.length s + 2) (skip_ws s) with
  | Some (v, r) =>
      match skip_ws r with
      | EmptyString => Some v
      | String _ _ => None
      end
  | None => None
  end.

(** Reading a Python object back as a list of finding dictionaries. *)
Definition to_str (o : pyobj) : option string :=
  match o with
  | PStr s => Some s
  | _ => None
  end.

Definition to_dict (o : pyobj) : option pydict :=
  match o with
  | PDict d => mapM (λ kv, v ← to_str kv.2; Some (kv.1, v)) d
  | _ => None
  end.

Definition to_findings (o : pyobj) : option (list pydict) :=
  match o with
  | PList l => mapM to_dict l
  | _ => None
  end.

(** *** Reading back what [dumps] wrote *)

Lemma slen_app (a b : string) :
  String.length (a +:+ b) = String.length a + String.length b.
Proof.
  induction a as [|c a IH]; [done|]. rewrite PyStr.app_cons. simpl. by rewrite IH.
Qed.

Lemma scanstring_escape_char (c : ascii) (rest : string) :
  scanstring (escape_char c +:+ rest) = prepend c (scanstring rest).
Proof. destruct c as [[] [] [] [] [] [] [] []]; reflexivity. Qed.

Lemma scanstring_escape (s rest : string) :
  scanstring (escape s +:+ String dquote rest) = Some (s, rest).
Proof.
  induction s as [|c s IH]; [done|].
  simpl escape. by rewrite PyStr.app_assoc, scanstring_escape_char, IH.
Qed.

Lemma encode_string_app (s rest : string) :
  encode_string s +:+ rest = String dquote (escape s +:+ String dquote rest).
Proof.
  unfold encode_string. by rewrite PyStr.app_cons, PyStr.app_assoc, PyStr.app_cons.
Qed.

Lemma skip_ws_spaces (n : nat) (rest : string) :
  skip_ws (PyStr.replicate n space +:+ rest) = skip_ws rest.
Proof. induction n as [|n IH]; [done|]. simpl. exact IH. Qed.

Lemma skip_ws_indent (level : nat) (rest : string) :
  skip_ws (newline_indent level +:+ rest) = skip_ws rest.
Proof.
  unfold newline_indent. rewrite PyStr.app_cons. simpl. apply skip_ws_spaces.
Qed.

(** The text of a dictionary of strings and of a list of them, written
    with recursion over the dictionary and over the list. *)
Fixpoint members_text (level : nat) (d : pydict) : string :=
  match d with
  | [] => newline_indent level +:+ "}"
  | kv :: d' =>
      "," +:+ newline_indent (S level) +:+ encode_string kv.1 +:+ ": "
      +:+ encode_string kv.2 +:+ members_text level d'
  end.

Definition dict_text (level : nat) (d : pydict) : string :=
  match d with
  | [] => "{}"
  | kv :: d' =>
      "{" +:+ newline_indent (S level) +:+ encode_string kv.1 +:+ ": "
      +:+ encode_string kv.2 +:+ members_text level d'
  end.

Fixpoint items_text (level : nat) (fs : list pydict) : string :=
  match fs with
  | [] => newline_indent level +:+ "]"
  | d :: fs' =>
      "," +:+ newline_indent (S level) +:+ dict_text (S level) d
      +:+ items_text level fs'
  end.

Definition findings_text (fs : list pydict) : string :=
  match fs with
  | [] => "[]"
  | d :: fs' =>
      "[" +:+ newline_indent 1 +:+ dict_text 1 d +:+ items_text 0 fs'
  end.

Lemma encode_of_dict (level : nat) (d : pydict) :
  encode level (of_dict d) = dict_text level d.
Proof.
  destruct d as [|[k v] d]; [done|]. unfold of_dict. simpl.
  do 5 f_equal. induction d as [|[k' v'] d IH]; [done|]. simpl.
  by rewrite IH.
Qed.

Lemma encode_items_of_dicts (fs : list pydict) :
  encode_items (encode 1) 0 (map of_dict fs) = items_text 0 fs.
Proof.
  induction fs as [|d fs IH]; [done|]. simpl map. cbn [encode_items items_text].
  fold (encode_items (encode 1) 0). by rewrite (encode_of_dict 1 d), IH.
Qed.

Lemma dumps_of_findings (fs : list pydict) :
  dumps (of_findings fs) = findings_text fs.
Proof.
  destruct fs as [|d fs]; [done|]. unfold dumps, of_findings. simpl map.
  cbn [encode findings_text].
  by rewrite (encode_of_dict 1 d), encode_items_of_dicts.
Qed.

(** A dictionary without repeated keys is what [dict(pairs)] builds from
    its own items. *)
Lemma setitem_fresh {A : Type} (k : string) (v : A) (d : list (string * A)) :
  k ∉ d.*1 → setitem k v d = d ++ [(k, v)].
Proof.
  induction d as [|[k' v'] d IH]; intros Hk; [done|]. simpl in *.
  apply not_elem_of_cons in Hk as [Hne Hk].
  rewrite bool_decide_eq_false_2 by congruence. by rewrite IH.
Qed.

Lemma dict_of_pairs_NoDup (l : list (string * pyobj)) :
  NoDup l.*1 → dict_of_pairs l = l.
Proof.
  unfold dict_of_pairs.
  assert (H : ∀ acc : list (string * pyobj),
             NoDup (acc.*1 ++ l.*1) →
             fold_left (λ d kv, setitem kv.1 kv.2 d) l acc = acc ++ l).
  { induction l as [|[k v] l IH]; intros acc Hnd; simpl.
    - by rewrite app_nil_r.
    - simpl in Hnd. apply NoDup_app in Hnd as (H1 & H2 & H3).
      rewrite setitem_fresh
        by (intros Hin; apply (H2 k Hin); apply elem_of_cons; by left).
      rewrite IH; [by rewrite <-app_assoc|].
      rewrite fmap_app. simpl. rewrite <-app_assoc. simpl.
      apply NoDup_app. by split_and!. }
  intros Hnd. by apply (H []).
Qed.

Lemma parse_string (fuel : nat) (s rest : string) :
  parse (S fuel) (encode_string s +:+ rest) = Some (PStr s, rest).
Proof. rewrite encode_string_app. simpl. by rewrite scanstring_escape. Qed.

Lemma skip_ws_string (s t : string) :
  skip_ws (encode_string s +:+ t) = encode_string s +:+ t.
Proof. by rewrite encode_string_app. Qed.

Lemma parse_members_text (level fuel : nat) (k v : string) (d : pydict)
    (rest : string) :
  length d + 2 ≤ fuel →
  parse_members fuel
    (encode_string k +:+ ": " +:+ encode_string v +:+ members_text level d +:+ rest)
  = Some ((k, PStr v) :: map (λ kv, (kv.1, PStr kv.2)) d, rest).
Proof.
  revert fuel k v. induction d as [|[k' v'] d IH]; intros fuel k v Hf;
    (destruct fuel as [|fuel]; [simpl in Hf; lia|]);
    (destruct fuel as [|fuel]; [simpl in Hf; lia|]);
    change (parse_members (S (S fuel)))
      with (members_step (parse (S fuel)) (parse_members (S fuel)));
    rewrite encode_string_app; unfold members_step;
    change (N_of_ascii dquote =? 34)%N with true; cbv iota;
    rewrite scanstring_escape;
    change (": " +:+ ?x) with (String ":" (String " " x));
    change (skip_ws (String ":" ?x)) with (String ":" x);
    change (N_of_ascii ":" =? 58)%N with true; cbv iota;
    change (skip_ws (String " " ?x)) with (skip_ws x);
    rewrite skip_ws_string, parse_string; cbn [members_text].
  - rewrite PyStr.app_assoc, skip_ws_indent. done.
  - change ("," +:+ ?x) with (String "," x). rewrite PyStr.app_cons.
    change (skip_ws (String "," ?x)) with (String "," x).
    change (N_of_ascii "," =? 125)%N with false.
    change (N_of_ascii "," =? 44)%N with true. cbv iota.
    rewrite !PyStr.app_assoc, skip_ws_indent. cbn [fst snd].
    rewrite skip_ws_string.
    rewrite (IH (S fuel) k' v') by (simpl in Hf; lia). done.
Qed.

Lemma parse_dict_text (level fuel : nat) (d : pydict) (rest : string) :
  NoDup d.*1 → length d + 2 ≤ fuel →
  parse fuel (dict_text level d +:+ rest) = Some (of_dict d, rest).
Proof.
  intros Hnd Hf. destruct fuel as [|fuel]; [lia|].
  change (parse (S fuel)) with (value_step (parse_items fuel) (parse_members fuel)).
  destruct d as [|[k v] d]; [done|].
  cbn [dict_text fst snd]. change ("{" +:+ ?x) with (String "{" x).
  rewrite PyStr.app_cons. unfold value_step.
  change (N_of_ascii "{" =? 34)%N with false.
  change (N_of_ascii "{" =? 91)%N with false.
  change (N_of_ascii "{" =? 123)%N with true. cbv iota.
  rewrite !PyStr.app_assoc, skip_ws_indent, skip_ws_string.
  rewrite (encode_string_app k).
  change (N_of_ascii dquote =? 125)%N with false. cbv iota.
  rewrite <-(encode_string_app k).
  rewrite (parse_members_text level fuel k v d rest) by (simpl in Hf; lia).
  unfold of_dict. simpl map. rewrite dict_of_pairs_NoDup; [done|].
  simpl. rewrite <-list_fmap_compose. exact Hnd.
Qed.

(** The rounds of the parser a list of dictionaries needs. *)
Definition rounds (fs : list pydict) : nat :=
  sum_list ((λ d, length d + 3) <$> fs).

Lemma dict_text_head (level : nat) (d : pydict) (t : string) :
  ∃ t', dict_text level d +:+ t = String "{" t'.
Proof. destruct d as [|[k v] d]; eexists; reflexivity. Qed.

Lemma skip_ws_dict_text (level : nat) (d : pydict) (t : string) :
  skip_ws (dict_text level d +:+ t) = dict_text level d +:+ t.
Proof. destruct (dict_text_head level d t) as [t' ->]. done. Qed.

Lemma parse_items_text (level fuel : nat) (d : pydict) (fs : list pydict)
    (rest : string) :
  Forall (λ d, NoDup d.*1) (d :: fs) → rounds (d :: fs) ≤ fuel →
  parse_items fuel (dict_text (S level) d +:+ items_text level fs +:+ rest)
  = Some (map of_dict (d :: fs), rest).
Proof.
  revert fuel d. induction fs as [|d' fs IH]; intros fuel d Hnd Hf;
    apply Forall_cons in Hnd as [Hd Hnd]; unfold rounds in Hf; simpl in Hf;
    (destruct fuel as [|fuel]; [lia|]);
    change (parse_items (S fuel)) with (items_step (parse fuel) (parse_items fuel));
    unfold items_step;
    rewrite parse_dict_text by (done || lia); cbn [items_text].
  - rewrite PyStr.app_assoc, skip_ws_indent. done.
  - change ("," +:+ ?x) with (String "," x). rewrite PyStr.app_cons.
    change (skip_ws (String "," ?x)) with (String "," x).
    change (N_of_ascii "," =? 93)%N with false.
    change (N_of_ascii "," =? 44)%N with true. cbv iota.
    rewrite !PyStr.app_assoc, skip_ws_indent, skip_ws_dict_text.
    rewrite (IH fuel d') by (done || unfold rounds; simpl; lia). done.
Qed.

Lemma parse_findings_text (fuel : nat) (fs : list pydict) (rest : string) :
  Forall (λ d, NoDup d.*1) fs → rounds fs + 1 ≤ fuel →
  parse fuel (findings_text fs +:+ rest) = Some (of_findings fs, rest).
Proof.
  intros Hnd Hf. destruct fuel as [|fuel]; [lia|].
  change (parse (S fuel)) with (value_step (parse_items fuel) (parse_members fuel)).
  destruct fs as [|d fs]; [done|].
  cbn [findings_text]. change ("[" +:+ ?x) with (String "[" x).
  rewrite PyStr.app_cons. unfold value_step.
  change (N_of_ascii "[" =? 34)%N with false.
  change (N_of_ascii "[" =? 91)%N with true. cbv iota.
  rewrite !PyStr.app_assoc, skip_ws_indent, skip_ws_dict_text.
  destruct (dict_text_head 1 d (items_text 0 fs +:+ rest)) as [t Ht].
  rewrite Ht. change (N_of_ascii "{" =? 93)%N with false. cbv iota.
  rewrite <-Ht.
  rewrite (parse_items_text 0 fuel d fs rest) by (done || lia). done.
Qed.

Lemma dict_text_length (level : nat) (d : pydict) :
  length d + 2 ≤ String.length (dict_text level d).
Proof.
  assert (H : ∀ d, length d + 1 ≤ String.length (members_text level d)).
  { clear d. induction d as [|kv d IH]; cbn [members_text].
    - rewrite slen_app. simpl. lia.
    - rewrite !slen_app. simpl. lia. }
  destruct d as [|kv d]; [simpl; lia|]. cbn [dict_text].
  rewrite !slen_app. specialize (H d). simpl. lia.
Qed.

Lemma rounds_cons (d : pydict) (fs : list pydict) :
  rounds (d :: fs) = length d + 3 + rounds fs.
Proof. done. Qed.

Lemma findings_text_length (fs : list pydict) :
  rounds fs + 1 ≤ 2 * String.length (findings_text fs) + 2.
Proof.
  assert (H : ∀ level fs, rounds fs + 1 ≤ String.length (items_text level fs)).
  { clear fs. intros level fs. induction fs as [|d fs IH]; cbn [items_text].
    - rewrite slen_app. change (rounds []) with 0. simpl. lia.
    - rewrite rounds_cons, !slen_app. pose proof (dict_text_length (S level) d).
      change (String.length ",") with 1. lia. }
  destruct fs as [|d fs]; [change (rounds []) with 0; lia|].
  cbn [findings_text]. rewrite rounds_cons, !slen_app.
  specialize (H 0 fs). pose proof (dict_text_length 1 d). lia.
Qed.

Lemma to_findings_of_findings (fs : list pydict) :
  to_findings (of_findings fs) = Some fs.
Proof.
  unfold to_findings, of_findings. apply mapM_Some. apply Forall2_fmap_l.
  apply Forall_Forall2_diag, Forall_forall. intros d _.
  unfold to_dict, of_dict. apply mapM_Some. apply Forall2_fmap_l.
  apply Forall_Forall2_diag, Forall_forall. by intros [k v] _.
Qed.

(** [json.loads(json.dumps(findings, indent=2))] is the findings list. *)
Lemma loads_dumps (fs : list pydict) :
  Forall (λ d, NoDup d.*1) fs →
  loads (dumps (of_findings fs)) = Some (of_findings fs).
Proof.
  intros Hnd. rewrite dumps_of_findings. unfold loads.
  assert (Hs : skip_ws (findings_text fs) = findings_text fs).
  { destruct fs as [|d fs]; done. }
  rewrite Hs. rewrite <-(PyStr.app_nil_r (findings_text fs)) at 2.
  rewrite parse_findings_text by (done || apply findings_text_length). done.
Qed.

End Json.

(** ** The scanner object *)

(** The attributes of [self]. *)
Record scanner := {
  target : string;
  timeout : Z;
  threads : Z;
  findings : list pydict;
  integration_output : option string
}.

(** [WebVulnScanner.__init__] *)
Definition WebVulnScanner_init (target_arg : string) (timeout_arg threads_arg : Z)
    (integration_output_arg : option string) : scanner :=
  {| target := PyStr.rstrip "/" target_arg;
     timeout := timeout_arg;
     threads := threads_arg;
     findings := [];
     integration_output := integration_output_arg |}.

(** ** The run of the scanner as a transition system *)

(** Where a worker thread stands in the loop of [worker()]. *)
Inductive wstate :=
| WGet                                   (* at [pathq.get()] *)
| WProbe (p : string)                    (* holds [path], at [robust_get] *)
| WCheck (p url : string) (resp : option Response)
                                         (* holds [resp], at the [if] *)
| WTaskDone (p : string)                 (* at [pathq.task_done()] *)
| WExit                                  (* left the loop: thread over *)
| WDied (p : string) (e : exn).          (* ended by an uncaught exception *)

(** Where the main thread stands in [run()]. *)
Inductive mainpc :=
| MStart                    (* entering [check_common_paths] *)
| MSpawn (k : nat)          (* thread-starting loop, [k] rounds left *)
| MJoinQueue                (* at [pathq.join()] *)
| MStop (k : nat)           (* sentinel loop, [k] rounds left *)
| MJoinThreads (i : nat)    (* at [t.join()] for thread number [i] *)
| MExtend                   (* at [self.findings.extend(results)] *)
| MCveStart                 (* entering [check_cve_signatures] *)
| MCve (todo : list (string * cve_meta))
                            (* loop over [CVE_PATHS.items()] *)
| MSave                     (* entering [save_results_json] *)
| MReport                   (* the closing prints of [run] *)
| MDone
| MCrashed (e : exn).       (* an exception left [run] *)

(** One call of [robust_get], for the record. *)
Record probe := {
  pr_by : option nat;       (* the worker, or [None] for the main thread *)
  pr_url : string;
  pr_result : completion (option Response)
}.

Record state := {
  self : scanner;
  results : list pydict;             (* the local list of [check_common_paths] *)
  pathq : list (option string);      (* [queue.Queue], oldest first *)
  unfinished_tasks : nat;            (* the counter behind [join]/[task_done] *)
  workers : list wstate;             (* the list [threads] *)
  pc : mainpc;
  stdout : list string;
  files : gmap string string;
  (* history, not read by the program *)
  dequeued : list (nat * string);    (* who got which path from the queue *)
  probes : list probe;               (* the requests sent, in order *)
  acked : list (nat * string)        (* who called [task_done] for which path *)
}.

Definition set_findings (fs : list pydict) (sc : scanner) : scanner :=
  {| target := target sc; timeout := timeout sc; threads := threads sc;
     findings := fs; integration_output := integration_output sc |}.

Definition set_self (sc : scanner) (s : state) : state :=
  {| self := sc; results := results s; pathq := pathq s;
     unfinished_tasks := unfinished_tasks s; workers := workers s; pc := pc s;
     stdout := stdout s; files := files s; dequeued := dequeued s;
     probes := probes s; acked := acked s |}.

Definition set_results (r : list pydict) (s : state) : state :=
  {| self := self s; results := r; pathq := pathq s;
     unfinished_tasks := unfinished_tasks s; workers := workers s; pc := pc s;
     stdout := stdout s; files := files s; dequeued := dequeued s;
     probes := probes s; acked := acked s |}.

Definition set_pathq (q : list (option string)) (n : nat) (s : state) : state :=
  {| self := self s; results := results s; pathq := q;
     unfinished_tasks := n; workers := workers s; pc := pc s;
     stdout := stdout s; files := files s; dequeued := dequeued s;
     probes := probes s; acked := acked s |}.

Definition set_workers (ws : list wstate) (s : state) : state :=
  {| self := self s; results := results s; pathq := pathq s;
     unfinished_tasks := unfinished_tasks s; workers := ws; pc := pc s;
     stdout := stdout s; files := files s; dequeued := dequeued s;
     probes := probes s; acked := acked s |}.

Definition set_pc (m : mainpc) (s : state) : state :=
  {| self := self s; results := results s; pathq := pathq s;
     unfinished_tasks := unfinished_tasks s; workers := workers s; pc := m;
     stdout := stdout s; files := files s; dequeued := dequeued s;
     probes := probes s; acked := acked s |}.

Definition print (lines : list string) (s : state) : state :=
  {| self := self s; results := results s; pathq := pathq s;
     unfinished_tasks := unfinished_tasks s; workers := workers s; pc := pc s;
     stdout := stdout s ++ lines; files := files s; dequeued := dequeued s;
     probes := probes s; acked := acked s |}.

Definition set_files (fs : gmap string string) (s : state) : state :=
  {| self := self s; results := results s; pathq := pathq s;
     unfinished_tasks := unfinished_tasks s; workers := workers s; pc := pc s;
     stdout := stdout s; files := fs; dequeued := dequeued s;
     probes := probes s; acked := acked s |}.

Definition log_dequeued (w : nat) (p : string) (s : state) : state :=
  {| self := self s; results := results s; pathq := pathq s;
     unfinished_tasks := unfinished_tasks s; workers := workers s; pc := pc s;
     stdout := stdout s; files := files s; dequeued := dequeued s ++ [(w, p)];
     probes := probes s; acked := acked s |}.

Definition log_probe (pr : probe) (s : state) : state :=
  {| self := self s; results := results s; pathq := pathq s;
     unfinished_tasks := unfinished_tasks s; workers := workers s; pc := pc s;
     stdout := stdout s; files := files s; dequeued := dequeued s;
     probes := probes s ++ [pr]; acked := acked s |}.

Definition log_acked (w : nat) (p : string) (s : state) : state :=
  {| self := self s; results := results s; pathq := pathq s;
     unfinished_tasks := unfinished_tasks s; workers := workers s; pc := pc s;
     stdout := stdout s; files := files s; dequeued := dequeued s;
     probes := probes s; acked := acked s ++ [(w, p)] |}.

(** A thread that [t.join()] no longer waits for. *)
Definition finished (w : wstate) : bool :=
  match w with
  | WExit | WDied _ _ => true
  | _ => false
  end.

(** The state in which [run()] is called on the scanner [sc]. *)
Definition init_state (sc : scanner) (fs : gmap string string) : state :=
  {| self := sc; results := []; pathq := []; unfinished_tasks := 0;
     workers := []; pc := MStart; stdout := []; files := fs;
     dequeued := []; probes := []; acked := [] |}.

Section Run.

Variable requests_get : nat → string → Z → completion Response.

(** [open(name, 'w')]: [None] when the file opens, the exception otherwise. *)
Variable open_w : string → option exn.

(** [str(f)] for a finding dictionary, as [print] shows it. *)
Variable repr : pydict → string.

(** One step of worker number [i]; [None] when it cannot move (blocked in
    [get] on an empty queue, or over). *)
Definition worker_step (i : nat) (s : state) : option state :=
  match workers s !! i with
  | Some WGet =>
      match pathq s with
      | [] => None
      | Some p :: q =>
          Some (log_dequeued i p
                  (set_workers (<[i := WProbe p]> (workers s))
                     (set_pathq q (unfinished_tasks s) s)))
      | None :: q =>
          Some (set_workers (<[i := WExit]> (workers s))
                  (set_pathq q (unfinished_tasks s) s))
      end
  | Some (WProbe p) =>
      let url := target (self s) +:+ p in
      let '(r, lines) :=
        robust_get requests_get (length (probes s)) url (timeout (self s)) in
      let s1 := log_probe {| pr_by := Some i; pr_url := url; pr_result := r |}
                  (print lines s) in
      match r with
      | Returns resp => Some (set_workers (<[i := WCheck p url resp]> (workers s)) s1)
      | Raises e => Some (set_workers (<[i := WDied p e]> (workers s)) s1)
      end
  | Some (WCheck p url resp) =>
      let s1 := set_workers (<[i := WTaskDone p]> (workers s)) s in
      if resp_and_200 resp then
        Some (print ["[!] Exposed: " +:+ url]
                (set_results (results s ++ [exposed_path_finding url]) s1))
      else Some s1
  | Some (WTaskDone p) =>
      match unfinished_tasks s with
      | O =>
          Some (set_workers
                  (<[i := WDied p (OtherException "task_done() called too many times")]>
                     (workers s)) s)
      | S n =>
          Some (log_acked i p
                  (set_workers (<[i := WGet]> (workers s))
                     (set_pathq (pathq s) n s)))
      end
  | Some WExit | Some (WDied _ _) | None => None
  end.

(** One step of the main thread; [None] when it cannot move (blocked in a
    [join], or over). *)
Definition main_step (s : state) : option state :=
  match pc s with
  | MStart =>
      Some (set_pc (MSpawn (Z.to_nat (threads (self s))))
              (set_workers []
                 (set_pathq (map Some COMMON_PATHS) (length COMMON_PATHS)
                    (set_results []
                       (print ["[+] Scanning common sensitive paths on "
                               +:+ target (self s)] s)))))
  | MSpawn (S k) => Some (set_pc (MSpawn k) (set_workers (workers s ++ [WGet]) s))
  | MSpawn O => Some (set_pc MJoinQueue s)
  | MJoinQueue =>
      match unfinished_tasks s with
      | O => Some (set_pc (MStop (Z.to_nat (threads (self s)))) s)
      | S _ => None
      end
  | MStop (S k) =>
      Some (set_pc (MStop k)
              (set_pathq (pathq s ++ [None]) (S (unfinished_tasks s)) s))
  | MStop O => Some (set_pc (MJoinThreads 0) s)
  | MJoinThreads i =>
      match workers s !! i with
      | None => Some (set_pc MExtend s)
      | Some w => if finished w then Some (set_pc (MJoinThreads (S i)) s) else None
      end
  | MExtend =>
      Some (set_pc MCveStart
              (set_self (set_findings (findings (self s) ++ results s) (self s)) s))
  | MCveStart =>
      Some (set_pc (MCve CVE_PATHS)
              (print ["[+] Scanning for over 100 CVEs (simulated subset shown)"] s))
  | MCve ((cve, meta) :: todo) =>
      let url := target (self s) +:+ path meta in
      let '(r, lines) :=
        robust_get requests_get (length (probes s)) url (timeout (self s)) in
      let s1 := log_probe {| pr_by := None; pr_url := url; pr_result := r |}
                  (print lines s) in
      match r with
      | Returns resp =>
          let o := cve_classify cve meta url resp in
          let fs := if co_appended o then findings (self s) ++ [co_finding o]
                    else findings (self s) in
          Some (set_pc (MCve todo)
                  (print [co_printed o] (set_self (set_findings fs (self s)) s1)))
      | Raises e => Some (set_pc (MCrashed e) s1)
      end
  | MCve [] => Some (set_pc MSave s)
  | MSave =>
      if PyStr.truthy (integration_output (self s)) then
        let name := default "" (integration_output (self s)) in
        match open_w name with
        | None =>
            Some (set_pc MReport
                    (print ["[JSON] Results written to " +:+ name]
                       (set_files
                          (<[name := Json.dumps (Json.of_findings (findings (self s)))]>
                             (files s)) s)))
        | Some e => Some (set_pc (MCrashed e) s)
        end
      else Some (set_pc MReport s)
  | MReport =>
      Some (set_pc MDone
              (print ([""; "[Done] Vulnerability scanning complete."; "Findings:"]
                      ++ map (λ f, "   " +:+ repr f) (findings (self s))) s))
  | MDone | MCrashed _ => None
  end.

(** The threads run interleaved: a step of the system is a step of the
    main thread or of one worker. *)
Definition step (s s' : state) : Prop :=
  main_step s = Some s' ∨ ∃ i, worker_step i s = Some s'.

(** Who moves next. *)
Inductive choice := Main | Worker (i : nat).

Definition sched_step (c : choice) (s : state) : option state :=
  match c with
  | Main => main_step s
  | Worker i => worker_step i s
  end.

(** Runs a schedule; a choice that cannot move is skipped. *)
Fixpoint run_schedule (cs : list choice) (s : state) : state :=
  match cs with
  | [] => s
  | c :: cs' => run_schedule cs' (default s (sched_step c s))
  end.


End Run.

(** ** Bookkeeping over the queue, the workers and the request log *)

(** The paths waiting in the queue, and the number of [None] sentinels. *)
Fixpoint queued (q : list (option string)) : list string :=
  match q with
  | [] => []
  | Some p :: q' => p :: queued q'
  | None :: q' => queued q'
  end.

Fixpoint sentinels (q : list (option string)) : nat :=
  match q with
  | [] => 0
  | Some _ :: q' => sentinels q'
  | None :: q' => S (sentinels q')
  end.

(** Summing a per-worker contribution over the list of threads. *)
Definition wsum {B : Type} (f : nat → wstate → list B) (ws : list wstate) : list B :=
  concat (imap f ws).

(** The task a worker has taken from the queue and not yet acknowledged. *)
Definition holding (i : nat) (w : wstate) : list (nat * string) :=
  match w with
  | WProbe p | WCheck p _ _ | WTaskDone p | WDied p _ => [(i, p)]
  | WGet | WExit => []
  end.

(** The held task, once its request has been sent. *)
Definition probed (i : nat) (w : wstate) : list (nat * string) :=
  match w with
  | WCheck p _ _ | WTaskDone p | WDied p _ => [(i, p)]
  | WGet | WProbe _ | WExit => []
  end.

(** The finding that [check_common_paths] records for a response. *)
Definition hit (url : string) (resp : option Response) : list pydict :=
  if resp_and_200 resp then [exposed_path_finding url] else [].

(** The finding a worker is about to record. *)
Definition pending (i : nat) (w : wstate) : list pydict :=
  match w with
  | WCheck _ url resp => hit url resp
  | _ => []
  end.

Definition exited (i : nat) (w : wstate) : list nat :=
  match w with WExit => [i] | _ => [] end.

Definition idle (i : nat) (w : wstate) : list nat :=
  match w with WGet => [i] | _ => [] end.

Definition died (i : nat) (w : wstate) : list nat :=
  match w with WDied _ _ => [i] | _ => [] end.

(** The steps a worker still has to make for the task it holds. *)
Definition work (i : nat) (w : wstate) : list unit :=
  match w with
  | WProbe _ => [(); (); ()]
  | WCheck _ _ _ => [(); ()]
  | WTaskDone _ => [()]
  | _ => []
  end.

(** The requests of the worker threads and those of the main thread. *)
Fixpoint wprobes (l : list probe) : list probe :=
  match l with
  | [] => []
  | pr :: l' => if pr_by pr is Some _ then pr :: wprobes l' else wprobes l'
  end.

Fixpoint cprobes (l : list probe) : list probe :=
  match l with
  | [] => []
  | pr :: l' => if pr_by pr is Some _ then cprobes l' else pr :: cprobes l'
  end.

Definition probe_hit (pr : probe) : list pydict :=
  match pr_result pr with
  | Returns resp => hit (pr_url pr) resp
  | Raises _ => []
  end.

Definition by_url (pr : probe) : option nat * string := (pr_by pr, pr_url pr).

Definition tag_url (tgt : string) (wp : nat * string) : option nat * string :=
  (Some wp.1, tgt +:+ wp.2).

(** The findings the CVE loop appends for the entries it has gone through. *)
Definition cve_hit (ep : (string * cve_meta) * probe) : list pydict :=
  match pr_result ep.2 with
  | Returns resp =>
      let o := cve_classify ep.1.1 ep.1.2 (pr_url ep.2) resp in
      if co_appended o then [co_finding o] else []
  | Raises _ => []
  end.

Definition cve_hits (l : list ((string * cve_meta) * probe)) : list pydict :=
  flat_map cve_hit l.

Definition cve_url (tgt : string) (e : string * cve_meta) : string :=
  tgt +:+ path e.2.


(** ** The invariant of a run *)

(** The multiset accounting of the worker pool: every path of the table
    is in the queue or was taken by a worker; a taken path is held or was
    acknowledged; the counter of the queue, the request log and [results]
    agree with that. *)
Record pool_inv (sc : scanner) (s : state) : Prop := {
  pi_queue : queued (pathq s) ++ (dequeued s).*2 ≡ₚ COMMON_PATHS;
  pi_deq : dequeued s ≡ₚ acked s ++ wsum holding (workers s);
  pi_unf : unfinished_tasks s =
           length (queued (pathq s)) + length (wsum holding (workers s))
           + sentinels (pathq s) + length (wsum exited (workers s));
  pi_probes : by_url <$> wprobes (probes s)
              ≡ₚ tag_url (target sc) <$> (acked s ++ wsum probed (workers s));
  pi_results : flat_map probe_hit (wprobes (probes s))
               ≡ₚ results s ++ wsum pending (workers s);
  pi_order : probes s = wprobes (probes s) ++ cprobes (probes s)
}.

(** Nothing waits in the queue and no worker holds a task. *)
Definition quiescent (s : state) : Prop :=
  queued (pathq s) = [] ∧ wsum holding (workers s) = [].

(** The pool is over: all the threads of the pool have left their loop. *)
Record pool_over (sc : scanner) (s : state) : Prop := {
  po_pool : pool_inv sc s;
  po_quiet : quiescent s;
  po_size : length (workers s) = Z.to_nat (threads sc);
  po_exit : Forall (λ w, w = WExit) (workers s)
}.

(** What the CVE loop has done so far. *)
Record cve_inv (sc : scanner) (s : state) : Prop := {
  ci_urls : pr_url <$> cprobes (probes s)
            = cve_url (target sc) <$> take (length (cprobes (probes s))) CVE_PATHS;
  ci_findings : findings (self s)
                = findings sc ++ results s
                  ++ cve_hits (zip CVE_PATHS (cprobes (probes s)))
}.

(** The file [save_results_json] wrote, when it was asked to write one. *)
Definition exported (s : state) : Prop :=
  PyStr.truthy (integration_output (self s)) = true →
  files s !! default "" (integration_output (self s))
  = Some (Json.dumps (Json.of_findings (findings (self s)))).

(** The attributes of [self] that [run] never assigns. *)
Definition same_config (sc : scanner) (s : state) : Prop :=
  target (self s) = target sc ∧ timeout (self s) = timeout sc ∧
  threads (self s) = threads sc ∧
  integration_output (self s) = integration_output sc.

(** What holds at each point of the main thread. *)
Definition stage_inv (sc : scanner) (s : state) : Prop :=
  match pc s with
  | MStart =>
      workers s = [] ∧ probes s = [] ∧ dequeued s = [] ∧ acked s = [] ∧
      findings (self s) = findings sc
  | MSpawn k =>
      pool_inv sc s ∧ findings (self s) = findings sc ∧ cprobes (probes s) = [] ∧
      length (workers s) + k = Z.to_nat (threads sc) ∧
      sentinels (pathq s) = 0 ∧ wsum exited (workers s) = []
  | MJoinQueue =>
      pool_inv sc s ∧ findings (self s) = findings sc ∧ cprobes (probes s) = [] ∧
      length (workers s) = Z.to_nat (threads sc) ∧
      sentinels (pathq s) = 0 ∧ wsum exited (workers s) = []
  | MStop k =>
      pool_inv sc s ∧ findings (self s) = findings sc ∧ cprobes (probes s) = [] ∧
      length (workers s) = Z.to_nat (threads sc) ∧ quiescent s ∧
      sentinels (pathq s) + k = length (wsum idle (workers s))
  | MJoinThreads i =>
      pool_inv sc s ∧ findings (self s) = findings sc ∧ cprobes (probes s) = [] ∧
      length (workers s) = Z.to_nat (threads sc) ∧ quiescent s ∧
      sentinels (pathq s) = length (wsum idle (workers s)) ∧
      (∀ j w, j < i → workers s !! j = Some w → w = WExit)
  | MExtend =>
      pool_over sc s ∧ findings (self s) = findings sc ∧ cprobes (probes s) = []
  | MCveStart =>
      pool_over sc s ∧ cve_inv sc s ∧ cprobes (probes s) = []
  | MCve todo =>
      pool_over sc s ∧ cve_inv sc s ∧
      todo = drop (length (cprobes (probes s))) CVE_PATHS
  | MSave =>
      pool_over sc s ∧ cve_inv sc s ∧
      length (cprobes (probes s)) = length CVE_PATHS
  | MReport | MDone =>
      pool_over sc s ∧ cve_inv sc s ∧
      length (cprobes (probes s)) = length CVE_PATHS ∧ exported s
  | MCrashed _ =>
      pool_over sc s ∧ cve_inv sc s
  end.

Definition Inv (sc : scanner) (s : state) : Prop :=
  same_config sc s ∧ stage_inv sc s.

(** A bound on the number of steps the run can still make: the steps
    left to the main thread, five steps for each item in the queue (one
    to take it and four to handle it) and the steps left on the tasks
    the workers hold. *)
Definition main_weight (s : state) : nat :=
  let T := Z.to_nat (threads (self s)) in
  let A := length CVE_PATHS + 5 in
  match pc s with
  | MStart => 5 * length COMMON_PATHS + 8 * T + A + 6
  | MSpawn k => 2 * k + 6 * T + length (workers s) + A + 4
  | MJoinQueue => 6 * T + length (workers s) + A + 3
  | MStop k => 6 * k + length (workers s) + A + 2
  | MJoinThreads i => (length (workers s) - i) + A + 1
  | MExtend => A
  | MCveStart => length CVE_PATHS + 4
  | MCve todo => length todo + 3
  | MSave => 2
  | MReport => 1
  | MDone | MCrashed _ => 0
  end.

Definition pool_weight (s : state) : nat :=
  5 * length (pathq s) + length (wsum work (workers s)).

Definition potential (s : state) : nat := main_weight s + pool_weight s.

(** [run] is over: it returned, or an exception left it. *)
Definition run_over (s : state) : bool :=
  match pc s with
  | MDone | MCrashed _ => true
  | _ => false
  end.

(** [check_common_paths] has returned (or is about to extend
    [self.findings] with [results]): the pool is over. *)
Definition phase1_over (s : state) : bool :=
  match pc s with
  | MStart | MSpawn _ | MJoinQueue | MStop _ | MJoinThreads _ => false
  | _ => true
  end.

(** [save_results_json] has run and wrote what it had to write. *)
Definition export_done (s : state) : bool :=
  match pc s with
  | MReport | MDone => true
  | _ => false
  end.

(** The loop of [check_cve_signatures] has gone through the whole table. *)
Definition cve_done (s : state) : bool :=
  match pc s with
  | MSave | MReport | MDone => true
  | _ => false
  end.

(** The status code an outcome of [robust_get] carries, if any. *)
Definition outcome_status (o : completion (option Response)) : option Z :=
  match o with
  | Returns (Some r) => Some (status_code r)
  | Returns None | Raises _ => None
  end.

(** The records of the exported array: an exposed path, or a CVE test
    with a positive status. *)
Definition finding_record (f : pydict) : Prop :=
  (∃ url, f = [("type", "exposed_path"); ("url", url)]) ∨
  (∃ cve url status details,
      f = [("type", "cve_test"); ("cve", cve); ("url", url);
           ("status", status); ("details", details)] ∧
      (status = "likely_present" ∨ status = "possibly_detected")).

(** ** Lemmas on the bookkeeping *)

Lemma queued_app (q1 q2 : list (option string)) :
  queued (q1 ++ q2) = queued q1 ++ queued q2.
Proof.
  induction q1 as [|[p|] q1 IH]; simpl; [done| |done]. by rewrite IH.
Qed.

Lemma sentinels_app (q1 q2 : list (option string)) :
  sentinels (q1 ++ q2) = sentinels q1 + sentinels q2.
Proof.
  induction q1 as [|[p|] q1 IH]; simpl; [done|done|]. by rewrite IH.
Qed.

Lemma queued_map_Some (l : list string) : queued (map Some l) = l.
Proof. induction l as [|p l IH]; simpl; [done|]. by rewrite IH. Qed.

Lemma sentinels_map_Some (l : list string) : sentinels (map Some l) = 0.
Proof. induction l as [|p l IH]; simpl; done. Qed.

Lemma wprobes_app (l1 l2 : list probe) :
  wprobes (l1 ++ l2) = wprobes l1 ++ wprobes l2.
Proof.
  induction l1 as [|pr l1 IH]; simpl; [done|].
  destruct (pr_by pr); [by rewrite IH|done].
Qed.

Lemma cprobes_app (l1 l2 : list probe) :
  cprobes (l1 ++ l2) = cprobes l1 ++ cprobes l2.
Proof.
  induction l1 as [|pr l1 IH]; simpl; [done|].
  destruct (pr_by pr); [done|by rewrite IH].
Qed.

Lemma wsum_nil {B : Type} (f : nat → wstate → list B) : wsum f [] = [].
Proof. done. Qed.

Lemma wsum_cons {B : Type} (f : nat → wstate → list B) (w : wstate) (ws : list wstate) :
  wsum f (w :: ws) = f 0 w ++ wsum (f ∘ S) ws.
Proof. done. Qed.

Lemma wsum_snoc {B : Type} (f : nat → wstate → list B) (ws : list wstate) (w : wstate) :
  wsum f (ws ++ [w]) = wsum f ws ++ f (length ws) w.
Proof.
  unfold wsum. rewrite imap_app, concat_app. simpl.
  by rewrite Nat.add_0_r, app_nil_r.
Qed.

(** Replacing the state of worker [i] exchanges its contribution and
    leaves the rest of the sum alone. *)
Lemma wsum_insert {B : Type} (f : nat → wstate → list B) (ws : list wstate)
    (i : nat) (w w' : wstate) :
  ws !! i = Some w →
  ∃ rest, wsum f ws ≡ₚ f i w ++ rest ∧ wsum f (<[i := w']> ws) ≡ₚ f i w' ++ rest.
Proof.
  revert f i. induction ws as [|x ws IH]; intros f i Hi; [done|].
  destruct i as [|i]; simpl in Hi.
  - injection Hi as ->. exists (wsum (f ∘ S) ws). by rewrite !wsum_cons.
  - destruct (IH (f ∘ S) i Hi) as (rest & H1 & H2).
    exists (f 0 x ++ rest). simpl. rewrite !wsum_cons, H1, H2. simpl.
    split; apply Permutation_app_swap_app.
Qed.

(** When every worker contributes nothing, so does each of them. *)
Lemma wsum_nil_inv {B : Type} (f : nat → wstate → list B) (ws : list wstate)
    (i : nat) (w : wstate) :
  wsum f ws = [] → ws !! i = Some w → f i w = [].
Proof.
  intros H Hi. destruct (wsum_insert f ws i w w Hi) as (rest & H1 & _).
  rewrite H in H1. symmetry in H1. apply Permutation_nil_r in H1.
  by apply app_eq_nil in H1 as [? _].
Qed.

(** A non-empty sum has a contributor. *)
Lemma wsum_cons_inv {B : Type} (f : nat → wstate → list B) (ws : list wstate) :
  wsum f ws ≠ [] → ∃ i w, ws !! i = Some w ∧ f i w ≠ [].
Proof.
  revert f. induction ws as [|x ws IH]; intros f H; [done|].
  rewrite wsum_cons in H. destruct (f 0 x) as [|b l] eqn:E.
  - destruct (IH (f ∘ S) H) as (i & w & Hi & Hw). by exists (S i), w.
  - exists 0, x. split; [done|]. by rewrite E.
Qed.

(** ** Every step keeps the invariant *)

Section Safety.

Variable requests_get : nat → string → Z → completion Response.
Variable open_w : string → option exn.
Variable repr : pydict → string.

Local Abbreviation wstep := (worker_step requests_get).
Local Abbreviation mstep := (main_step requests_get open_w repr).
Local Abbreviation step := (step requests_get open_w repr).

Ltac wsum_at Hi w' :=
  let r := fresh "rest" in
  let H1 := fresh "Hh" in let H2 := fresh "Hh'" in
  destruct (wsum_insert holding _ _ _ w' Hi) as (r & H1 & H2);
  let r := fresh "rest" in
  let H1 := fresh "He" in let H2 := fresh "He'" in
  destruct (wsum_insert exited _ _ _ w' Hi) as (r & H1 & H2);
  let r := fresh "rest" in
  let H1 := fresh "Hp" in let H2 := fresh "Hp'" in
  destruct (wsum_insert probed _ _ _ w' Hi) as (r & H1 & H2);
  let r := fresh "rest" in
  let H1 := fresh "Hn" in let H2 := fresh "Hn'" in
  destruct (wsum_insert pending _ _ _ w' Hi) as (r & H1 & H2);
  simpl in *.

Ltac solve_unf Hu Hh He Hh' He' :=
  rewrite ?Hh', ?He'; rewrite ?Hh, ?He in Hu; simpl in *;
  rewrite ?length_app in *; simpl in *; lia.

Lemma worker_step_pool (sc : scanner) (i : nat) (s s' : state) :
  target (self s) = target sc → cprobes (probes s) = [] → pool_inv sc s →
  wstep i s = Some s' →
  pool_inv sc s' ∧ self s' = self s ∧ pc s' = pc s ∧ cprobes (probes s') = [] ∧
  length (workers s') = length (workers s) ∧ files s' = files s.
Proof.
  intros Ht Hc [Hq Hd Hu Hpr Hr Ho] Hs. unfold worker_step in Hs.
  destruct (workers s !! i) as [w|] eqn:Hi; [|done].
  destruct w as [|p|p url resp|p| |p e]; try done.
  - (* get *)
    destruct (pathq s) as [|[p|] q] eqn:Eq; [done| |]; injection Hs as <-.
    + wsum_at Hi (WProbe p). simpl in *.
      split; [|by rewrite length_insert].
      split; simpl.
      * rewrite fmap_app. simpl. rewrite <-Hq. solve_Permutation.
      * rewrite Hh', Hd, Hh. solve_Permutation.
      * solve_unf Hu Hh He Hh' He'.
      * by rewrite Hp', Hpr, Hp.
      * by rewrite Hn', Hr, Hn.
      * done.
    + wsum_at Hi WExit. simpl in *.
      split; [|by rewrite length_insert].
      split; simpl.
      * done.
      * by rewrite Hh', Hd, Hh.
      * solve_unf Hu Hh He Hh' He'.
      * by rewrite Hp', Hpr, Hp.
      * by rewrite Hn', Hr, Hn.
      * done.
  - (* robust_get *)
    destruct (robust_get _ _ _ _) as [r lines] eqn:Er.
    destruct r as [resp|e]; injection Hs as <-.
    + wsum_at Hi (WCheck p (target (self s) +:+ p) resp). simpl in *.
      split; [|by rewrite length_insert, cprobes_app, Hc].
      split; simpl; rewrite ?wprobes_app, ?cprobes_app; simpl.
      * done.
      * by rewrite Hh', Hd, Hh.
      * solve_unf Hu Hh He Hh' He'.
      * rewrite Hp', fmap_app, Hpr, Hp, !fmap_app. simpl.
        unfold tag_url, by_url. simpl. rewrite Ht. solve_Permutation.
      * rewrite Hn', flat_map_app, Hr, Hn. simpl. rewrite app_nil_r.
        unfold probe_hit. simpl. solve_Permutation.
      * rewrite Hc, !app_nil_r. rewrite Ho at 1. by rewrite Hc, app_nil_r.
    + wsum_at Hi (WDied p e). simpl in *.
      split; [|by rewrite length_insert, cprobes_app, Hc].
      split; simpl; rewrite ?wprobes_app, ?cprobes_app; simpl.
      * done.
      * by rewrite Hh', Hd, Hh.
      * solve_unf Hu Hh He Hh' He'.
      * rewrite Hp', fmap_app, Hpr, Hp, !fmap_app. simpl.
        unfold tag_url, by_url. simpl. rewrite Ht. solve_Permutation.
      * rewrite Hn', flat_map_app, Hr, Hn. simpl. rewrite app_nil_r.
        unfold probe_hit. simpl. by rewrite ?app_nil_r.
      * rewrite Hc, !app_nil_r. rewrite Ho at 1. by rewrite Hc, app_nil_r.
  - (* the test on resp *)
    wsum_at Hi (WTaskDone p). unfold hit in *.
    destruct (resp_and_200 resp) eqn:E200; injection Hs as <-; simpl in *.
    + split; [|by rewrite length_insert].
      split; simpl.
      * done.
      * by rewrite Hh', Hd, Hh.
      * solve_unf Hu Hh He Hh' He'.
      * by rewrite Hp', Hpr, Hp.
      * rewrite Hn', Hr, Hn. solve_Permutation.
      * done.
    + split; [|by rewrite length_insert].
      split; simpl.
      * done.
      * by rewrite Hh', Hd, Hh.
      * solve_unf Hu Hh He Hh' He'.
      * by rewrite Hp', Hpr, Hp.
      * by rewrite Hn', Hr, Hn.
      * done.
  - (* task_done *)
    destruct (unfinished_tasks s) as [|n] eqn:En; injection Hs as <-.
    + wsum_at Hi (WDied p (OtherException "task_done() called too many times")).
      split; [|by rewrite length_insert].
      split; simpl.
      * done.
      * by rewrite Hh', Hd, Hh.
      * solve_unf Hu Hh He Hh' He'.
      * by rewrite Hp', Hpr, Hp.
      * by rewrite Hn', Hr, Hn.
      * done.
    + wsum_at Hi WGet.
      split; [|by rewrite length_insert].
      split; simpl.
      * done.
      * rewrite Hh', Hd, Hh. solve_Permutation.
      * solve_unf Hu Hh He Hh' He'.
      * rewrite Hp', Hpr, Hp. apply fmap_Permutation. solve_Permutation.
      * by rewrite Hn', Hr, Hn.
      * done.
Qed.


Lemma perm_nil_l {B : Type} (l : list B) : l ≡ₚ [] → l = [].
Proof. apply Permutation_nil_r. Qed.

Lemma worker_step_nosent (i : nat) (s s' : state) :
  sentinels (pathq s) = 0 → wsum exited (workers s) = [] →
  wstep i s = Some s' →
  sentinels (pathq s') = 0 ∧ wsum exited (workers s') = [].
Proof.
  intros Hsen Hex Hs. unfold worker_step in Hs.
  destruct (workers s !! i) as [w|] eqn:Hi; [|done].
  assert (Hkeep : ∀ w', exited i w' = [] → wsum exited (<[i := w']> (workers s)) = []).
  { intros w' Hw'. destruct (wsum_insert exited _ _ _ w' Hi) as (rest & H1 & H2).
    rewrite Hex in H1. symmetry in H1. apply perm_nil_l, app_eq_nil in H1 as [_ ->].
    rewrite Hw' in H2. by apply perm_nil_l. }
  destruct w as [|p|p url resp|p| |p e]; try done.
  - destruct (pathq s) as [|[p|] q] eqn:Eq; [done| |done].
    injection Hs as <-. simpl in *. auto.
  - destruct (robust_get _ _ _ _) as [[resp|e] lines]; injection Hs as <-; simpl; auto.
  - destruct (resp_and_200 resp); injection Hs as <-; simpl; auto.
  - destruct (unfinished_tasks s); injection Hs as <-; simpl; auto.
Qed.

Lemma worker_step_quiet (i : nat) (s s' : state) :
  quiescent s → wstep i s = Some s' →
  quiescent s' ∧ S (sentinels (pathq s')) = sentinels (pathq s) ∧
  S (length (wsum idle (workers s'))) = length (wsum idle (workers s)) ∧
  (∀ j w, workers s' !! j = Some w → w = WExit ∨ workers s !! j = Some w).
Proof.
  intros [Hq Hh] Hs. unfold worker_step in Hs.
  destruct (workers s !! i) as [w|] eqn:Hi; [|done].
  pose proof (wsum_nil_inv holding _ _ _ Hh Hi) as Hw.
  destruct w as [|p|p url resp|p| |p e]; try done.
  destruct (pathq s) as [|[p|] q] eqn:Eq; [done|done|].
  injection Hs as <-. simpl in *.
  destruct (wsum_insert holding _ _ _ WExit Hi) as (rh & Hh1 & Hh2).
  destruct (wsum_insert idle _ _ _ WExit Hi) as (ri & Hi1 & Hi2).
  simpl in *. rewrite Hh in Hh1. symmetry in Hh1. apply perm_nil_l in Hh1 as ->.
  split_and!.
  - split; [done|]. by apply perm_nil_l.
  - done.
  - by rewrite Hi1, Hi2.
  - intros j w Hj. destruct (decide (i = j)) as [->|Hne].
    + rewrite list_lookup_insert_eq in Hj by eauto using lookup_lt_Some.
      left. congruence.
    + rewrite list_lookup_insert_ne in Hj by done. by right.
Qed.

Lemma worker_step_exit (i : nat) (s : state) :
  Forall (λ w, w = WExit) (workers s) → wstep i s = None.
Proof.
  intros Hall. unfold worker_step.
  destruct (workers s !! i) as [w|] eqn:Hi; [|done].
  rewrite Forall_lookup in Hall. by rewrite (Hall i w Hi).
Qed.

Lemma worker_step_inv (sc : scanner) (i : nat) (s s' : state) :
  Inv sc s → wstep i s = Some s' → Inv sc s'.
Proof.
  intros [Hcfg Hst] Hs. unfold stage_inv in Hst.
  assert (Hfin : ∀ P : Prop, pool_over sc s → P).
  { intros P Hov. by rewrite (worker_step_exit i s (po_exit _ _ Hov)) in Hs. }
  destruct (pc s) eqn:Epc;
    try (destruct Hst as (Hov & _); by apply Hfin).
  - destruct Hst as (Hw & _). unfold worker_step in Hs.
    by rewrite Hw in Hs.
  - destruct Hst as (Hpool & Hf & Hc & Hlen & Hsen & Hex).
    destruct (worker_step_pool sc i s s' (proj1 Hcfg) Hc Hpool Hs)
      as (Hpool' & Hself & Hpc & Hc' & Hlen' & _).
    destruct (worker_step_nosent i s s' Hsen Hex Hs) as [Hsen' Hex'].
    split; [unfold same_config; by rewrite Hself|].
    unfold stage_inv. rewrite Hpc, Epc, Hself, Hlen'. done.
  - destruct Hst as (Hpool & Hf & Hc & Hlen & Hsen & Hex).
    destruct (worker_step_pool sc i s s' (proj1 Hcfg) Hc Hpool Hs)
      as (Hpool' & Hself & Hpc & Hc' & Hlen' & _).
    destruct (worker_step_nosent i s s' Hsen Hex Hs) as [Hsen' Hex'].
    split; [unfold same_config; by rewrite Hself|].
    unfold stage_inv. rewrite Hpc, Epc, Hself, Hlen'. done.
  - destruct Hst as (Hpool & Hf & Hc & Hlen & Hqu & Hsen).
    destruct (worker_step_pool sc i s s' (proj1 Hcfg) Hc Hpool Hs)
      as (Hpool' & Hself & Hpc & Hc' & Hlen' & _).
    destruct (worker_step_quiet i s s' Hqu Hs) as (Hqu' & Hsen' & Hidle & _).
    split; [unfold same_config; by rewrite Hself|].
    unfold stage_inv. rewrite Hpc, Epc, Hself, Hlen'. split_and!; try done. lia.
  - destruct Hst as (Hpool & Hf & Hc & Hlen & Hqu & Hsen & Hpre).
    destruct (worker_step_pool sc i s s' (proj1 Hcfg) Hc Hpool Hs)
      as (Hpool' & Hself & Hpc & Hc' & Hlen' & _).
    destruct (worker_step_quiet i s s' Hqu Hs) as (Hqu' & Hsen' & Hidle & Hws).
    split; [unfold same_config; by rewrite Hself|].
    unfold stage_inv. rewrite Hpc, Epc, Hself, Hlen'. split_and!; try done; [lia|].
    intros j w Hj Hw. destruct (Hws j w Hw) as [->|Hw']; [done|]. eauto.
Qed.


(** The accounting reads only the queue, the workers, the histories and
    the requests of the workers. *)
Lemma pool_inv_ext (sc : scanner) (s s' : state) :
  pathq s' = pathq s → unfinished_tasks s' = unfinished_tasks s →
  workers s' = workers s → dequeued s' = dequeued s → acked s' = acked s →
  results s' = results s → wprobes (probes s') = wprobes (probes s) →
  probes s' = wprobes (probes s') ++ cprobes (probes s') →
  pool_inv sc s → pool_inv sc s'.
Proof.
  intros Hq Hu Hw Hd Ha Hr Hp Ho [? ? ? ? ? ?].
  split; rewrite ?Hq, ?Hu, ?Hw, ?Hd, ?Ha, ?Hr, ?Hp; try done.
  by rewrite <-Hp.
Qed.

Lemma pool_over_ext (sc : scanner) (s s' : state) :
  pathq s' = pathq s → unfinished_tasks s' = unfinished_tasks s →
  workers s' = workers s → dequeued s' = dequeued s → acked s' = acked s →
  results s' = results s → wprobes (probes s') = wprobes (probes s) →
  probes s' = wprobes (probes s') ++ cprobes (probes s') →
  pool_over sc s → pool_over sc s'.
Proof.
  intros Hq Hu Hw Hd Ha Hr Hp Ho [Hpool [Hqu Hh] Hsz Hex].
  split; [by eapply pool_inv_ext| |by rewrite Hw|by rewrite Hw].
  split; by rewrite ?Hq, ?Hw.
Qed.

(** The length of a per-worker sum whose summands have a length that
    depends on the state of the worker only. *)
Lemma length_wsum {B : Type} (f : nat → wstate → list B) (g : wstate → nat)
    (ws : list wstate) :
  (∀ i w, length (f i w) = g w) → length (wsum f ws) = sum_list (g <$> ws).
Proof.
  revert f. induction ws as [|w ws IH]; intros f Hf; [done|].
  rewrite wsum_cons, length_app, Hf. simpl. f_equal. apply IH.
  intros i w'. apply Hf.
Qed.

(** Every worker idles at [get], has left, or holds a task. *)
Lemma workers_partition (ws : list wstate) :
  length (wsum idle ws) + length (wsum exited ws) + length (wsum holding ws)
  = length ws.
Proof.
  rewrite (length_wsum idle (λ w, length (idle 0 w))),
          (length_wsum exited (λ w, length (exited 0 w))),
          (length_wsum holding (λ w, length (holding 0 w)));
    try (by intros i []).
  induction ws as [|w ws IH]; [done|]. csimpl. destruct w; simpl; lia.
Qed.

Lemma zip_snoc {A B : Type} (l : list A) (k : list B) (x : A) (y : B) :
  l !! length k = Some x → zip l (k ++ [y]) = zip l k ++ [(x, y)].
Proof.
  revert l. induction k as [|b k IH]; intros [|a l] H; simplify_eq/=.
  - by destruct l.
  - by rewrite IH.
Qed.

Lemma drop_cons_inv {A : Type} (l : list A) (n : nat) (x : A) (k : list A) :
  drop n l = x :: k →
  l !! n = Some x ∧ drop (S n) l = k ∧ take (S n) l = take n l ++ [x].
Proof.
  revert l. induction n as [|n IH]; intros l H.
  - rewrite drop_0 in H. subst l. by split_and!.
  - destruct l as [|a l]; [done|]. simpl in H.
    destruct (IH l H) as (H1 & H2 & H3). split_and!; [done|done|].
    simpl. by rewrite H3.
Qed.

Local Opaque CVE_PATHS.

Lemma main_step_inv (sc : scanner) (s s' : state) :
  Inv sc s → mstep s = Some s' → Inv sc s'.
Proof.
  intros [Hcfg Hst] Hs. unfold stage_inv in Hst. unfold main_step in Hs.
  destruct Hcfg as (Htgt & Htmo & Hthr & Hout).
  destruct (pc s) as [|k| |k|i| | |todo| | | |e] eqn:Epc.
  - (* MStart *)
    destruct Hst as (Hw & Hp & Hd & Ha & Hf). injection Hs as <-.
    split; [done|]. unfold stage_inv. simpl. rewrite ?Hp, ?Hd, ?Ha, ?Hthr. simpl.
    split_and!; try done. split; simpl; rewrite ?Hp, ?Hd, ?Ha; simpl; try done.
  - (* MSpawn *)
    destruct Hst as (Hpool & Hf & Hc & Hlen & Hsen & Hex).
    destruct k as [|k]; injection Hs as <-.
    + split; [done|]. unfold stage_inv. simpl. split_and!; try done; [|lia].
      by eapply pool_inv_ext; [..|exact Hpool]; try done; apply Hpool.
    + split; [done|]. unfold stage_inv. simpl.
      rewrite length_app, !wsum_snoc. simpl. rewrite app_nil_r.
      split_and!; try done; [|lia].
      destruct Hpool as [? ? ? ? ? ?].
      split; simpl; rewrite ?wsum_snoc; simpl; rewrite ?app_nil_r; done.
  - (* MJoinQueue *)
    destruct Hst as (Hpool & Hf & Hc & Hlen & Hsen & Hex).
    destruct (unfinished_tasks s) eqn:Eu; [|done]. injection Hs as <-.
    pose proof (pi_unf _ _ Hpool) as Hu. rewrite Eu in Hu.
    assert (Hqu : quiescent s).
    { split; apply nil_length_inv; lia. }
    split; [done|]. unfold stage_inv. simpl. split_and!; try done.
    + by eapply pool_inv_ext; [..|exact Hpool]; try done; apply Hpool.
    + pose proof (workers_partition (workers s)) as Hpart.
      destruct Hqu as [_ Hh]. rewrite Hh, Hex in Hpart. simpl in Hpart.
      rewrite Hthr. lia.
  - (* MStop *)
    destruct Hst as (Hpool & Hf & Hc & Hlen & [Hq Hh] & Hsen).
    destruct k as [|k]; injection Hs as <-.
    + split; [done|]. unfold stage_inv. simpl. split_and!; try done; [|lia|lia].
      by eapply pool_inv_ext; [..|exact Hpool]; try done; apply Hpool.
    + split; [done|]. unfold stage_inv, quiescent. simpl.
      rewrite ?queued_app, ?sentinels_app. simpl. rewrite ?app_nil_r.
      split_and!; try done; [|lia].
      destruct Hpool as [? ? Hu ? ? ?].
      split; simpl; rewrite ?queued_app, ?sentinels_app; simpl;
        rewrite ?app_nil_r; try done.
      rewrite Hu. lia.
  - (* MJoinThreads *)
    destruct Hst as (Hpool & Hf & Hc & Hlen & [Hq Hh] & Hsen & Hpre).
    destruct (workers s !! i) as [w|] eqn:Hi.
    + destruct (finished w) eqn:Hfin; [|done]. injection Hs as <-.
      split; [done|]. unfold stage_inv. simpl. split_and!; try done.
      * by eapply pool_inv_ext; [..|exact Hpool]; try done; apply Hpool.
      * intros j w' Hj Hw'. destruct (decide (j = i)) as [->|Hne].
        -- pose proof (wsum_nil_inv holding _ _ _ Hh Hi) as Hhw.
           rewrite Hi in Hw'. injection Hw' as <-. by destruct w.
        -- apply (Hpre j w'); [lia|done].
    + injection Hs as <-.
      split; [done|]. unfold stage_inv. simpl. split_and!; try done.
      split; try done.
      * by eapply pool_inv_ext; [..|exact Hpool]; try done; apply Hpool.
      * apply Forall_lookup. intros j w' Hj. apply (Hpre j w'); [|done].
        apply lookup_ge_None in Hi. apply lookup_lt_Some in Hj. simpl in Hj. lia.
  - (* MExtend *)
    destruct Hst as (Hov & Hf & Hc). injection Hs as <-.
    split; [done|]. unfold stage_inv. simpl. split_and!; try done.
    + by eapply pool_over_ext; [..|exact Hov]; try done; apply Hov.
    + split; simpl; rewrite Hc; simpl; [done|].
      by rewrite Hf, zip_with_nil_r, app_nil_r.
  - (* MCveStart *)
    destruct Hst as (Hov & Hci & Hc). injection Hs as <-.
    split; [done|]. unfold stage_inv. simpl. split_and!.
    + by eapply pool_over_ext; [..|exact Hov]; try done; apply Hov.
    + by destruct Hci; split.
    + by rewrite Hc, drop_0.
  - (* MCve *)
    destruct Hst as (Hov & [Hurls Hfs] & Htodo).
    destruct todo as [|[cve meta] todo].
    + injection Hs as <-.
      split; [done|]. unfold stage_inv. simpl. split_and!; try done.
      * by eapply pool_over_ext; [..|exact Hov]; try done; apply Hov.
      * apply (f_equal length) in Hurls, Htodo.
        rewrite !length_fmap, length_take in Hurls.
        rewrite length_drop in Htodo.
        change (length CVE_PATHS) with 3 in *. simpl in Htodo. lia.
    + symmetry in Htodo. apply drop_cons_inv in Htodo as (Hlk & Hdrop & Htake).
      destruct (robust_get _ _ _ _) as [[resp|e] lines] eqn:Er; injection Hs as <-.
      * split; [done|]. unfold stage_inv. simpl.
        rewrite cprobes_app. simpl. rewrite length_app. simpl.
        rewrite Nat.add_1_r.
        split_and!; try done.
        -- eapply pool_over_ext; [..|exact Hov]; simpl; try done.
           ++ rewrite wprobes_app. simpl. by rewrite app_nil_r.
           ++ rewrite wprobes_app, cprobes_app. simpl. rewrite app_nil_r, app_assoc.
              f_equal. apply Hov.
        -- split; simpl; rewrite cprobes_app; simpl.
           ++ rewrite length_app. simpl. rewrite Nat.add_1_r, Htake, !fmap_app, Hurls.
              simpl. unfold cve_url at 3. simpl. by rewrite Htgt.
           ++ rewrite (zip_snoc _ _ (cve, meta)) by done.
              unfold cve_hits. rewrite flat_map_app. simpl. rewrite app_nil_r.
              fold (cve_hits (zip CVE_PATHS (cprobes (probes s)))).
              unfold cve_hit. simpl.
              destruct (co_appended _); rewrite Hfs, <-?app_assoc; [done|].
              by rewrite app_nil_r.
      * split; [done|]. unfold stage_inv. simpl. split_and!.
        -- eapply pool_over_ext; [..|exact Hov]; simpl; try done.
           ++ rewrite wprobes_app. simpl. by rewrite app_nil_r.
           ++ rewrite wprobes_app, cprobes_app. simpl. rewrite app_nil_r, app_assoc.
              f_equal. apply Hov.
        -- split; simpl; rewrite cprobes_app; simpl.
           ++ rewrite length_app. simpl. rewrite Nat.add_1_r, Htake, !fmap_app, Hurls.
              simpl. unfold cve_url at 3. simpl. by rewrite Htgt.
           ++ rewrite (zip_snoc _ _ (cve, meta)) by done.
              unfold cve_hits. rewrite flat_map_app. simpl.
              by rewrite !app_nil_r.
  - (* MSave *)
    destruct Hst as (Hov & Hci & Hn).
    destruct (PyStr.truthy (integration_output (self s))) eqn:Etr.
    + destruct (open_w _) as [e|] eqn:Eop; injection Hs as <-.
      * split; [done|]. unfold stage_inv. simpl. split.
        -- by eapply pool_over_ext; [..|exact Hov]; try done; apply Hov.
        -- by destruct Hci; split.
      * split; [done|]. unfold stage_inv. simpl. split_and!; try done.
        -- by eapply pool_over_ext; [..|exact Hov]; try done; apply Hov.
        -- by destruct Hci; split.
        -- intros _. simpl. by rewrite lookup_insert_eq.
    + injection Hs as <-.
      split; [done|]. unfold stage_inv. simpl. split_and!; try done.
      * by eapply pool_over_ext; [..|exact Hov]; try done; apply Hov.
      * by destruct Hci; split.
      * intros Htr. simpl in Htr. congruence.
  - (* MReport *)
    destruct Hst as (Hov & Hci & Hn & Hex). injection Hs as <-.
    split; [done|]. unfold stage_inv. simpl. split_and!; try done.
    + by eapply pool_over_ext; [..|exact Hov]; try done; apply Hov.
    + by destruct Hci; split.
  - done.
  - done.
Qed.

Local Transparent CVE_PATHS.

Lemma step_inv (sc : scanner) (s s' : state) :
  Inv sc s → step s s' → Inv sc s'.
Proof.
  intros HI [Hs|[i Hs]]; [by eapply main_step_inv|by eapply worker_step_inv].
Qed.

Lemma init_inv (sc : scanner) (fs : gmap string string) :
  Inv sc (init_state sc fs).
Proof. split; [done|]. unfold stage_inv. simpl. done. Qed.

Lemma reachable_inv (sc : scanner) (fs : gmap string string) (s : state) :
  rtc step (init_state sc fs) s → Inv sc s.
Proof.
  intros H. apply rtc_ind_r with (x := init_state sc fs) (P := Inv sc) in H;
    eauto using init_inv, step_inv.
Qed.


(** ** Progress and termination *)

(** [requests.get] raises nothing but [RequestException]s. *)
Definition only_request_exceptions : Prop :=
  ∀ now url tmo e, requests_get now url tmo ≠ Raises (OtherException e).

Lemma robust_get_returns (now : nat) (url : string) (tmo : Z) :
  only_request_exceptions →
  ∃ resp lines, robust_get requests_get now url tmo = (Returns resp, lines).
Proof.
  intros Hnet. unfold robust_get.
  destruct (requests_get now url tmo) as [r|[e|e]] eqn:E; eauto.
  by destruct (Hnet now url tmo e).
Qed.

(** With such an HTTP client no worker thread dies. *)
Lemma step_nodied (sc : scanner) (s s' : state) :
  only_request_exceptions → Inv sc s → wsum died (workers s) = [] →
  step s s' → wsum died (workers s') = [].
Proof.
  intros Hnet [Hcfg Hst] Hnd [Hs|[i Hs]].
  - unfold main_step in Hs.
    destruct (pc s) as [|k| |k|j| | |todo| | | |e];
      repeat (match type of Hs with
              | context [match ?x with _ => _ end] => destruct x eqn:?
              | context [if ?x then _ else _] => destruct x eqn:?
              end); simplify_eq/=; try done.
    by rewrite wsum_snoc, Hnd.
  - unfold worker_step in Hs.
    destruct (workers s !! i) as [w|] eqn:Hi; [|done].
    assert (Hkeep : ∀ w', died i w' = [] → wsum died (<[i := w']> (workers s)) = []).
    { intros w' Hw'. destruct (wsum_insert died _ _ _ w' Hi) as (rest & H1 & H2).
      rewrite Hnd in H1. symmetry in H1. apply perm_nil_l, app_eq_nil in H1 as [_ ->].
      rewrite Hw' in H2. by apply perm_nil_l. }
    destruct w as [|p|p url resp|p| |p e]; try done.
    + destruct (pathq s) as [|[p|] q]; simplify_eq/=; auto.
    + destruct (robust_get_returns (length (probes s)) (target (self s) +:+ p)
                  (timeout (self s)) Hnet) as (resp & lines & Er).
      rewrite Er in Hs. injection Hs as <-. simpl. auto.
    + destruct (resp_and_200 resp); injection Hs as <-; simpl; auto.
    + destruct (unfinished_tasks s) as [|n] eqn:Eu; injection Hs as <-; simpl; auto.
      exfalso.
      assert (Hpool : pool_inv sc s).
      { unfold stage_inv in Hst.
        destruct (pc s); try (by destruct Hst); try (by destruct Hst as [[] _]).
        destruct Hst as [Hw _]. by rewrite Hw in Hi. }
      pose proof (pi_unf _ _ Hpool) as Hu. rewrite Eu in Hu.
      destruct (wsum_insert holding _ _ _ WGet Hi) as (rest & H1 & _).
      apply Permutation_length in H1. simpl in H1. lia.
Qed.

(** A run that is not over can make a step, as long as the pool has a
    thread and no thread died. *)
Lemma progress (sc : scanner) (s : state) :
  (0 < threads sc)%Z → Inv sc s → wsum died (workers s) = [] →
  only_request_exceptions → run_over s = false → ∃ s', step s s'.
Proof.
  intros HT [Hcfg Hst] Hnd Hnet Hover.
  assert (Hmain : is_Some (mstep s) → ∃ s', step s s').
  { intros [s' H]. exists s'. by left. }
  assert (Hwork : ∀ i, is_Some (wstep i s) → ∃ s', step s s').
  { intros i [s' H]. exists s'. right. by exists i. }
  assert (Hbusy : wsum holding (workers s) ≠ [] → ∃ s', step s s').
  { intros Hne. apply wsum_cons_inv in Hne as (i & w & Hi & Hw).
    pose proof (wsum_nil_inv died _ _ _ Hnd Hi) as Hdw.
    apply (Hwork i). unfold worker_step. rewrite Hi.
    destruct w as [|p|p url resp|p| |p e]; try done.
    - destruct (robust_get_returns (length (probes s)) (target (self s) +:+ p)
                  (timeout (self s)) Hnet) as (resp & lines & Er).
      rewrite Er. eauto.
    - destruct (resp_and_200 resp); eauto.
    - destruct (unfinished_tasks s); eauto. }
  unfold stage_inv in Hst. unfold run_over in Hover.
  destruct (pc s) as [|k| |k|i| | |todo| | | |e] eqn:Epc; try done;
    try (apply Hmain; unfold main_step; rewrite Epc; by eauto).
  - apply Hmain. unfold main_step. rewrite Epc. destruct k; eauto.
  - (* MJoinQueue *)
    destruct Hst as (Hpool & Hf & Hc & Hlen & Hsen & Hex).
    destruct (unfinished_tasks s) as [|n] eqn:Eu.
    { apply Hmain. unfold main_step. rewrite Epc, Eu. eauto. }
    destruct (wsum holding (workers s)) as [|h hs] eqn:Eh; [|by apply Hbusy].
    pose proof (pi_unf _ _ Hpool) as Hu. rewrite Eu, Eh, Hsen, Hex in Hu.
    simpl in Hu.
    pose proof (workers_partition (workers s)) as Hpart.
    rewrite Eh, Hex in Hpart. simpl in Hpart.
    destruct (workers s) as [|w ws] eqn:Ew; [simpl in Hlen; lia|].
    assert (Hw0 : workers s !! 0 = Some w) by by rewrite Ew.
    rewrite <-Ew in Eh, Hex.
    pose proof (wsum_nil_inv holding (workers s) 0 w Eh Hw0) as Hhw.
    pose proof (wsum_nil_inv exited (workers s) 0 w Hex Hw0) as Hxw.
    apply (Hwork 0). unfold worker_step. rewrite Hw0.
    destruct w; try done.
    destruct (pathq s) as [|[p|] q] eqn:Eq; [simpl in Hu; lia|eauto|done].
  - apply Hmain. unfold main_step. rewrite Epc. destruct k; eauto.
  - (* MJoinThreads *)
    destruct Hst as (Hpool & Hf & Hc & Hlen & [Hq Hh] & Hsen & Hpre).
    destruct (workers s !! i) as [w|] eqn:Hi.
    2:{ apply Hmain. unfold main_step. rewrite Epc, Hi. eauto. }
    destruct (finished w) eqn:Hfin.
    { apply Hmain. unfold main_step. rewrite Epc, Hi, Hfin. eauto. }
    pose proof (wsum_nil_inv holding _ _ _ Hh Hi) as Hhw.
    apply (Hwork i). unfold worker_step. rewrite Hi.
    destruct w; try done.
    destruct (wsum_insert idle _ _ _ WGet Hi) as (rest & H1 & _).
    apply Permutation_length in H1. simpl in H1.
    destruct (pathq s) as [|[p|] q] eqn:Eq; [simpl in Hsen; lia|done|eauto].
  - (* MCve *)
    apply Hmain. unfold main_step. rewrite Epc.
    destruct todo as [|[cve meta] todo]; [eauto|].
    destruct (robust_get _ _ _ _) as [[resp|e] lines]; eauto.
  - (* MSave *)
    apply Hmain. unfold main_step. rewrite Epc.
    destruct (PyStr.truthy _); [|eauto]. destruct (open_w _); eauto.
Qed.


(** Every step uses up some of the potential, so every run is finite. *)
Lemma step_potential (s s' : state) : step s s' → potential s' < potential s.
Proof.
  unfold potential, pool_weight, main_weight. intros [Hs|[i Hs]].
  - unfold main_step in Hs.
    destruct (pc s) as [|k| |k|j| | |todo| | | |e] eqn:Epc;
      repeat (match type of Hs with
              | context [match ?x with _ => _ end] => destruct x eqn:?
              | context [if ?x then _ else _] => destruct x eqn:?
              end); simplify_eq/=;
      rewrite ?wsum_snoc, ?length_app, ?length_fmap; simpl; try lia.
    match goal with H : workers s !! _ = Some _ |- _ => apply lookup_lt_Some in H end.
    lia.
  - unfold worker_step in Hs.
    destruct (workers s !! i) as [w|] eqn:Hi; [|done].
    assert (Hw : ∀ w', length (wsum work (<[i := w']> (workers s))) + length (work i w)
                       = length (wsum work (workers s)) + length (work i w')).
    { intros w'. destruct (wsum_insert work _ _ _ w' Hi) as (rest & H1 & H2).
      rewrite H1, H2, !length_app. lia. }
    destruct w as [|p|p url resp|p| |p e]; try done;
      repeat (match type of Hs with
              | context [match ?x with _ => _ end] => destruct x eqn:?
              | context [if ?x then _ else _] => destruct x eqn:?
              end); simplify_eq/=;
      rewrite ?length_insert;
      match goal with
      | |- context [<[i := ?w']> (workers s)] => specialize (Hw w'); simpl in Hw
      end;
      destruct (pc s); lia.
Qed.


(** ** What the invariant says at the points of interest *)

Definition reachable (sc : scanner) (fs : gmap string string) (s : state) : Prop :=
  rtc step (init_state sc fs) s.

Lemma elem_of_wsum {B : Type} (f : nat → wstate → list B) (ws : list wstate) (x : B) :
  x ∈ wsum f ws ↔ ∃ i w, ws !! i = Some w ∧ x ∈ f i w.
Proof.
  revert f. induction ws as [|w0 ws IH]; intros f.
  - split; [by intros ?%elem_of_nil|by intros (i & w & ? & _)].
  - rewrite wsum_cons, elem_of_app, IH. split.
    + intros [H|(i & w & Hi & Hx)]; [by exists 0, w0|by exists (S i), w].
    + intros ([|i] & w & Hi & Hx); simplify_eq/=; [by left|right; eauto].
Qed.

Lemma wsum_nil_intro {B : Type} (f : nat → wstate → list B) (ws : list wstate) :
  (∀ i w, ws !! i = Some w → f i w = []) → wsum f ws = [].
Proof.
  intros H. destruct (wsum f ws) as [|x l] eqn:E; [done|].
  assert (Hx : x ∈ wsum f ws) by (rewrite E; left).
  apply elem_of_wsum in Hx as (i & w & Hi & Hx). rewrite (H i w Hi) in Hx.
  by apply elem_of_nil in Hx.
Qed.

Lemma holding_nil_probed (ws : list wstate) :
  wsum holding ws = [] → wsum probed ws = [] ∧ wsum pending ws = [].
Proof.
  intros H. split; apply wsum_nil_intro; intros i w Hi;
    pose proof (wsum_nil_inv holding ws i w H Hi); by destruct w.
Qed.

Lemma Inv_phase1_over (sc : scanner) (s : state) :
  Inv sc s → phase1_over s = true → pool_over sc s.
Proof.
  intros [_ Hst] Hov. unfold stage_inv in Hst. unfold phase1_over in Hov.
  destruct (pc s); try done; by destruct Hst.
Qed.

Lemma Inv_pool (sc : scanner) (s : state) :
  Inv sc s → pc s ≠ MStart → pool_inv sc s.
Proof.
  intros [_ Hst] Hpc. unfold stage_inv in Hst.
  destruct (pc s); try done; destruct Hst as [H _]; try done; apply H.
Qed.

(** When the pool is over every path of the table was taken, requested
    and acknowledged once, and [results] holds the hits. *)
Lemma pool_over_facts (sc : scanner) (s : state) :
  pool_over sc s →
  (dequeued s).*2 ≡ₚ COMMON_PATHS ∧ acked s ≡ₚ dequeued s ∧
  by_url <$> wprobes (probes s) ≡ₚ tag_url (target sc) <$> dequeued s ∧
  results s ≡ₚ flat_map probe_hit (wprobes (probes s)).
Proof.
  intros [[Hq Hd Hu Hp Hr Ho] [Hqu Hh] _ _].
  destruct (holding_nil_probed _ Hh) as [Hpb Hpd].
  rewrite Hqu in Hq. rewrite Hh, app_nil_r in Hd.
  rewrite Hpb, app_nil_r in Hp. rewrite Hpd, app_nil_r in Hr.
  split_and!; [done|done|by rewrite Hp, Hd|done].
Qed.

Lemma tag_url_paths (tgt : string) (l : list (nat * string)) :
  (tag_url tgt <$> l).*2 = (λ p, tgt +:+ p) <$> l.*2.
Proof. rewrite <-!list_fmap_compose. by apply list_fmap_ext. Qed.

Lemma by_url_urls (l : list probe) : (by_url <$> l).*2 = pr_url <$> l.
Proof. rewrite <-list_fmap_compose. by apply list_fmap_ext. Qed.




Lemma reachable_nodied (sc : scanner) (fs : gmap string string) (s : state) :
  only_request_exceptions → reachable sc fs s → wsum died (workers s) = [].
Proof.
  intros Hnet H.
  assert (Inv sc s ∧ wsum died (workers s) = []) as [_ ?]; [|done].
  apply rtc_ind_r with (x := init_state sc fs)
    (P := λ s, Inv sc s ∧ wsum died (workers s) = []) in H.
  - done.
  - split; [apply init_inv|done].
  - intros y z _ Hyz [HI Hd]. split; [by eapply step_inv|by eapply step_nodied].
Qed.

(** The findings the two phases add are records of the exported array. *)
Lemma hit_record (pr : probe) (f : pydict) : f ∈ probe_hit pr → finding_record f.
Proof.
  unfold probe_hit, hit. destruct (pr_result pr) as [resp|e]; [|by intros ?%elem_of_nil].
  destruct (resp_and_200 resp); [|by intros ?%elem_of_nil].
  intros ->%list_elem_of_singleton. left. by eexists.
Qed.

Lemma cve_classify_appended (cve : string) (meta : cve_meta) (url : string)
    (resp : option Response) :
  co_appended (cve_classify cve meta url resp) = true →
  ∃ status details,
    co_finding (cve_classify cve meta url resp)
    = [("type", "cve_test"); ("cve", cve); ("url", url);
       ("status", status); ("details", details)] ∧
    (status = "likely_present" ∨ status = "possibly_detected").
Proof.
  unfold cve_classify. destruct resp as [r|]; [|done].
  destruct (Response_bool r && (status_code r =? 200)%Z).
  - destruct (keyword meta) as [kw|].
    + destruct (PyStr.truthy (Some kw)).
      * destruct (PyStr.contains kw (text r)); [|done]. intros _.
        exists "likely_present", "Keyword matched in response.". auto.
      * intros _. exists "possibly_detected", "". auto.
    + intros _. exists "possibly_detected", "". auto.
  - by destruct (Response_bool r).
Qed.

Lemma cve_hit_record (ep : (string * cve_meta) * probe) (f : pydict) :
  f ∈ cve_hit ep → finding_record f.
Proof.
  unfold cve_hit. destruct (pr_result ep.2) as [resp|e]; [|by intros ?%elem_of_nil].
  destruct (co_appended _) eqn:E; [|by intros ?%elem_of_nil].
  intros ->%list_elem_of_singleton.
  destruct (cve_classify_appended _ _ _ _ E) as (st & dt & -> & Hst).
  right. by exists ep.1.1, (pr_url ep.2), st, dt.
Qed.

Lemma Inv_finding_records (sc : scanner) (s : state) :
  Forall finding_record (findings sc) → Inv sc s →
  Forall finding_record (findings (self s)).
Proof.
  intros H0 [_ Hst]. unfold stage_inv in Hst.
  assert (Hphase2 : pool_over sc s → cve_inv sc s →
                    Forall finding_record (findings (self s))).
  { intros Hov [_ ->].
    destruct (pool_over_facts sc s Hov) as (_ & _ & _ & Hr).
    rewrite !Forall_app. split_and!; [done| |].
    - rewrite Hr. apply Forall_forall. intros f Hf.
      apply list_elem_of_In, in_flat_map in Hf as (pr & _ & Hf).
      apply list_elem_of_In in Hf. by eapply hit_record.
    - apply Forall_forall. intros f Hf.
      apply list_elem_of_In, in_flat_map in Hf as (ep & _ & Hf).
      apply list_elem_of_In in Hf. by eapply cve_hit_record. }
  destruct (pc s);
    try (destruct Hst as (? & ? & ?); by apply Hphase2);
    try (destruct Hst as (? & ?); by apply Hphase2).
  - destruct Hst as (_ & _ & _ & _ & ->). done.
  - destruct Hst as (_ & -> & _). done.
  - destruct Hst as (_ & -> & _). done.
  - destruct Hst as (_ & -> & _). done.
  - destruct Hst as (_ & -> & _). done.
  - destruct Hst as (_ & -> & _). done.
Qed.

Lemma finding_record_NoDup (f : pydict) : finding_record f → NoDup f.*1.
Proof.
  intros [[url ->]|(cve & url & st & dt & -> & _)]; simpl;
    repeat (apply NoDup_cons; split;
            [rewrite ?not_elem_of_cons; split_and?; try discriminate;
             apply not_elem_of_nil|]);
    apply NoDup_nil_2.
Qed.

Lemma run_schedule_reachable (cs : list choice) (s : state) :
  rtc step s (run_schedule requests_get open_w repr cs s).
Proof.
  revert s. induction cs as [|c cs IH]; intros s; simpl; [done|].
  destruct (sched_step requests_get open_w repr c s) as [s'|] eqn:E; simpl.
  - eapply rtc_l; [|apply IH]. destruct c; [by left|right; by eexists].
  - apply IH.
Qed.


Lemma pc_start_or_not (s : state) : pc s = MStart ∨ pc s ≠ MStart.
Proof. destruct (pc s); auto. Qed.

Lemma pc_extend_or_not (s : state) : pc s = MExtend ∨ pc s ≠ MExtend.
Proof. destruct (pc s); auto. Qed.



Lemma Inv_phase1 (sc : scanner) (s : state) :
  Inv sc s → phase1_over s = false →
  cprobes (probes s) = [] ∧ findings (self s) = findings sc.
Proof.
  intros [_ Hst] Hov. unfold stage_inv in Hst. unfold phase1_over in Hov.
  destruct (pc s); try done.
  - destruct Hst as (_ & -> & _ & _ & ->). done.
  - by destruct Hst as (_ & ? & ? & _).
  - by destruct Hst as (_ & ? & ? & _).
  - by destruct Hst as (_ & ? & ? & _).
  - by destruct Hst as (_ & ? & ? & _).
Qed.

Lemma Inv_cve (sc : scanner) (s : state) :
  Inv sc s → phase1_over s = true → pc s ≠ MExtend → cve_inv sc s.
Proof.
  intros [_ Hst] Hov Hpc. unfold stage_inv in Hst. unfold phase1_over in Hov.
  destruct (pc s); try done;
    first [by destruct Hst as (_ & ?)|by destruct Hst as (_ & ? & _)].
Qed.

Lemma elem_of_wprobes (l : list probe) (pr : probe) :
  pr ∈ wprobes l → pr ∈ l ∧ ∃ w, pr_by pr = Some w.
Proof.
  induction l as [|x l IH]; simpl; [by intros ?%elem_of_nil|].
  destruct (pr_by x) as [w|] eqn:E.
  - intros [->|H]%elem_of_cons.
    + split; [left|eauto].
    + destruct (IH H). split; [by right|done].
  - intros H. destruct (IH H). split; [by right|done].
Qed.

Lemma elem_of_cprobes (l : list probe) (pr : probe) :
  pr ∈ cprobes l → pr ∈ l ∧ pr_by pr = None.
Proof.
  induction l as [|x l IH]; simpl; [by intros ?%elem_of_nil|].
  destruct (pr_by x) as [w|] eqn:E.
  - intros H. destruct (IH H). split; [by right|done].
  - intros [->|H]%elem_of_cons.
    + split; [left|done].
    + destruct (IH H). split; [by right|done].
Qed.

(** ** The claims about the run *)

(** The request [pr] is the request of a task: of a path that the worker
    took from the queue, or of an entry of the CVE table; its URL is the
    target followed by the path of the task. *)
Definition probe_of_task (sc : scanner) (s : state) (pr : probe) : Prop :=
  match pr_by pr with
  | Some w =>
      ∃ p, (w, p) ∈ dequeued s ∧ p ∈ COMMON_PATHS ∧ pr_url pr = target sc +:+ p
  | None =>
      ∃ e, e ∈ CVE_PATHS ∧ pr_url pr = target sc +:+ path e.2
  end.

Lemma Inv_probes (sc : scanner) (s : state) :
  Inv sc s → Forall (probe_of_task sc s) (probes s).
Proof.
  intros HI. destruct (pc_start_or_not s) as [Hpc|Hpc].
  { destruct HI as [_ Hst]. unfold stage_inv in Hst. rewrite Hpc in Hst.
    destruct Hst as (_ & -> & _). done. }
  pose proof (Inv_pool sc s HI Hpc) as [Hq Hd _ Hp _ Ho].
  rewrite Ho. apply Forall_app. split; apply Forall_forall; intros pr Hpr.
  - pose proof Hpr as Hpr'. apply elem_of_wprobes in Hpr' as [_ [w Hw]].
    unfold probe_of_task. rewrite Hw.
    apply (list_elem_of_fmap_2 by_url) in Hpr. rewrite Hp in Hpr.
    apply list_elem_of_fmap in Hpr as ([w' p] & Heq & Hin).
    unfold by_url, tag_url in Heq. simpl in Heq. rewrite Hw in Heq.
    injection Heq as -> Hurl.
    assert (Hdq : (w', p) ∈ dequeued s).
    { rewrite Hd. apply elem_of_app in Hin as [Hin|Hin]; apply elem_of_app; [by left|].
      right. apply elem_of_wsum in Hin as (i & ws & Hi & Hin).
      apply elem_of_wsum. exists i, ws. split; [done|].
      destruct ws; simpl in *; try done; by apply elem_of_nil in Hin. }
    exists p. split_and!; [done| |done].
    rewrite <-Hq. apply elem_of_app. right.
    by apply (list_elem_of_fmap_2 snd) in Hdq.
  - pose proof Hpr as Hpr'. apply elem_of_cprobes in Hpr' as [_ Hn].
    unfold probe_of_task. rewrite Hn.
    destruct (phase1_over s) eqn:Hov.
    + destruct (pc_extend_or_not s) as [He|He].
      { destruct HI as [_ Hst]. unfold stage_inv in Hst. rewrite He in Hst.
        destruct Hst as (_ & _ & Hc). rewrite Hc in Hpr. by apply elem_of_nil in Hpr. }
      destruct (Inv_cve sc s HI Hov He) as [Hurls _].
      apply (list_elem_of_fmap_2 pr_url) in Hpr. rewrite Hurls in Hpr.
      apply list_elem_of_fmap in Hpr as (e & Hurl & Hin).
      exists e. split; [|done]. by apply subseteq_take in Hin.
    + destruct (Inv_phase1 sc s HI Hov) as [Hc _]. rewrite Hc in Hpr.
      by apply elem_of_nil in Hpr.
Qed.

(** C1. In the common-paths phase an [exposed_path] finding is recorded
    for a path task if and only if the outcome of the request to
    [target + path] has HTTP status 200: once the pool is over there was
    one request per path of the table, at the target followed by the
    path, and [results] holds, up to order, one finding for each request
    answered with status 200 and nothing for any other request, whatever
    its status and also when the transport failed. *)
Theorem check_common_paths_records_status_200
    (sc : scanner) (fs : gmap string string) (s : state) :
  reachable sc fs s → phase1_over s = true →
  pr_url <$> wprobes (probes s) ≡ₚ (λ p, target sc +:+ p) <$> COMMON_PATHS ∧
  results s ≡ₚ flat_map probe_hit (wprobes (probes s)) ∧
  (∀ pr, probe_hit pr
         = if bool_decide (outcome_status (pr_result pr) = Some 200%Z)
           then [exposed_path_finding (pr_url pr)] else []).
Proof.
  intros Hr Hov.
  pose proof (Inv_phase1_over sc s (reachable_inv sc fs s Hr) Hov) as Hpo.
  destruct (pool_over_facts sc s Hpo) as (Hd & _ & Hp & Hres).
  split_and!.
  - rewrite <-by_url_urls, Hp, tag_url_paths. by rewrite Hd.
  - done.
  - intros pr. unfold probe_hit, hit, outcome_status, resp_and_200, Response_bool.
    destruct (pr_result pr) as [[r|]|e]; try done.
    case_bool_decide as H200.
    + injection H200 as ->. done.
    + destruct (Z.eqb_spec (status_code r) 200) as [E|E]; [by rewrite E in H200|].
      by rewrite andb_false_r.
Qed.

(** The step handles the response [r]: a worker receives it from
    [robust_get] or stands at its test with it, or the main thread
    receives it for the next entry of the CVE table. *)
Definition handles_response (c : choice) (s : state) (r : Response) : Prop :=
  match c with
  | Worker i =>
      (∃ p, workers s !! i = Some (WProbe p) ∧
            requests_get (length (probes s)) (target (self s) +:+ p)
              (timeout (self s)) = Returns r) ∨
      (∃ p url, workers s !! i = Some (WCheck p url (Some r)))
  | Main =>
      ∃ cve meta todo,
        pc s = MCve ((cve, meta) :: todo) ∧
        requests_get (length (probes s)) (target (self s) +:+ path meta)
          (timeout (self s)) = Returns r
  end.

(** C6. In either phase, a response with HTTP status 404 never makes the
    step that handles it append a finding: neither the list [results] of
    the common-paths phase nor [self.findings] changes. *)
Theorem status_404_never_appends
    (c : choice) (s s' : state) (r : Response) :
  status_code r = 404%Z → handles_response c s r →
  sched_step requests_get open_w repr c s = Some s' →
  results s' = results s ∧ findings (self s') = findings (self s).
Proof.
  intros H404 Hh Hs. destruct c as [|i]; simpl in *.
  - destruct Hh as (cve & meta & todo & Hpc & Hget).
    unfold main_step in Hs. rewrite Hpc in Hs.
    unfold robust_get in Hs. rewrite Hget in Hs. injection Hs as <-. simpl.
    unfold cve_classify, Response_bool. rewrite H404. done.
  - unfold worker_step in Hs. destruct Hh as [(p & Hi & Hget)|(p & url & Hi)].
    + rewrite Hi in Hs. unfold robust_get in Hs. rewrite Hget in Hs.
      injection Hs as <-. done.
    + rewrite Hi in Hs. unfold resp_and_200, Response_bool in Hs.
      rewrite H404 in Hs. injection Hs as <-. done.
Qed.

(** C8. The JSON text that the export writes for a findings list reads
    back, with [json.loads], as a list of the same length with the same
    keys and values in every element, and every element is a record of
    the exported array: an exposed path with its [type] and [url], or a
    CVE test with [type], [cve], [url], [status] and [details].  Once the
    export is done with an output file asked for, that file holds this
    text for the findings list of that moment. *)
Theorem export_json_roundtrip
    (sc : scanner) (fs : gmap string string) (s : state) :
  Forall finding_record (findings sc) → reachable sc fs s →
  Forall finding_record (findings (self s)) ∧
  Json.loads (Json.dumps (Json.of_findings (findings (self s))))
  = Some (Json.of_findings (findings (self s))) ∧
  Json.loads (Json.dumps (Json.of_findings (findings (self s))))
    ≫= Json.to_findings = Some (findings (self s)) ∧
  (export_done s = true → PyStr.truthy (integration_output sc) = true →
     files s !! default "" (integration_output sc)
     = Some (Json.dumps (Json.of_findings (findings (self s))))).
Proof.
  intros H0 Hr. pose proof (reachable_inv sc fs s Hr) as HI.
  pose proof (Inv_finding_records sc s H0 HI) as Hrec.
  assert (Hload : Json.loads (Json.dumps (Json.of_findings (findings (self s))))
                  = Some (Json.of_findings (findings (self s)))).
  { apply Json.loads_dumps. eapply Forall_impl; [exact Hrec|].
    apply finding_record_NoDup. }
  split_and!; [done|done| |].
  - rewrite Hload. simpl. apply Json.to_findings_of_findings.
  - intros Hed Htr. destruct HI as [(_ & _ & _ & Hout) Hst].
    unfold stage_inv in Hst. unfold export_done in Hed.
    destruct (pc s); try done; destruct Hst as (_ & _ & _ & Hex);
      unfold exported in Hex; rewrite Hout in Hex; by apply Hex.
Qed.

(** C9. The target that [__init__] stores is its argument without its
    trailing slashes: the argument is the stored target followed by
    slashes only, and the stored target does not end with a slash.  No
    step of [run] changes it, and every request sent in either phase goes
    to exactly the stored target followed by the path of the task: of a
    path task that the requesting worker took from the queue, or of an
    entry of the CVE table. *)
Theorem target_normalized_and_probed
    (tgt : string) (tmo thr : Z) (out : option string)
    (fs : gmap string string) (s : state) :
  reachable (WebVulnScanner_init tgt tmo thr out) fs s →
  (∃ n, tgt = target (WebVulnScanner_init tgt tmo thr out) +:+ PyStr.replicate n "/") ∧
  PyStr.last (target (WebVulnScanner_init tgt tmo thr out)) ≠ Some "/"%char ∧
  target (self s) = target (WebVulnScanner_init tgt tmo thr out) ∧
  Forall (probe_of_task (WebVulnScanner_init tgt tmo thr out) s) (probes s).
Proof.
  intros Hr. pose proof (reachable_inv _ fs s Hr) as HI. split_and!.
  - apply PyStr.rstrip_decompose.
  - apply PyStr.rstrip_last.
  - apply HI.
  - by apply Inv_probes.
Qed.

(** C10. Every finding of type [cve_test] in [self.findings] has status
    [likely_present] or [possibly_detected], and no finding has status
    [not_detected]: a CVE task classified [not_detected] is not appended.
    So the exported file, which reads back as the findings list, holds no
    [not_detected] record. *)
Theorem cve_findings_never_not_detected
    (tgt : string) (tmo thr : Z) (out : option string)
    (fs : gmap string string) (s : state) :
  reachable (WebVulnScanner_init tgt tmo thr out) fs s →
  Forall (λ f, getitem "type" f = Some "cve_test" →
               getitem "status" f = Some "likely_present" ∨
               getitem "status" f = Some "possibly_detected")
         (findings (self s)) ∧
  Forall (λ f, getitem "status" f ≠ Some "not_detected") (findings (self s)) ∧
  (∀ cve meta url resp,
     cve_status cve meta url resp = Some "not_detected" →
     co_appended (cve_classify cve meta url resp) = false) ∧
  (export_done s = true → PyStr.truthy out = true →
     ∃ content, files s !! default "" out = Some content ∧
                Json.loads content ≫= Json.to_findings = Some (findings (self s))).
Proof.
  intros Hr. pose proof (reachable_inv _ fs s Hr) as HI.
  assert (Hrec : Forall finding_record (findings (self s))).
  { apply (Inv_finding_records (WebVulnScanner_init tgt tmo thr out) s);
      [by apply Forall_nil|done]. }
  split_and!.
  - eapply Forall_impl; [exact Hrec|].
    intros f [[url ->]|(cve & url & st & dt & -> & Hst)]; [done|].
    intros _. simpl. destruct Hst as [->| ->]; auto.
  - eapply Forall_impl; [exact Hrec|].
    intros f [[url ->]|(cve & url & st & dt & -> & Hst)]; [done|].
    simpl. destruct Hst as [->| ->]; done.
  - intros cve meta url resp Hnd.
    destruct (co_appended (cve_classify cve meta url resp)) eqn:E; [|done].
    destruct (cve_classify_appended _ _ _ _ E) as (st & dt & Hf & Hst).
    unfold cve_status in Hnd. rewrite Hf in Hnd. simpl in Hnd.
    destruct Hst as [->| ->]; done.
  - intros Hed Htr. eexists. split.
    + destruct HI as [(_ & _ & _ & Hout) Hst].
      unfold stage_inv in Hst. unfold export_done in Hed.
      destruct (pc s); try done; destruct Hst as (_ & _ & _ & Hex);
        unfold exported in Hex; rewrite Hout in Hex; by apply Hex.
    + rewrite Json.loads_dumps.
      * simpl. apply Json.to_findings_of_findings.
      * eapply Forall_impl; [exact Hrec|]. apply finding_record_NoDup.
Qed.

End Safety.

(** ** The claims about one request and one classification *)

(** Every keyword of the CVE table is a non-empty string. *)
Lemma CVE_PATHS_keywords : Forall (λ e, keyword e.2 ≠ Some "") CVE_PATHS.
Proof. repeat constructor; discriminate. Qed.

(** C2. For a CVE task whose request is answered with status 200: with an
    expected keyword the classification is [likely_present] if and only
    if the keyword occurs in the body as a literal substring, and
    [not_detected] otherwise; with no expected keyword it is
    [possibly_detected].  An expected keyword is a non-empty string, as
    all the keywords of the table are: Python takes the empty string for
    no keyword. *)
Theorem cve_classification_status_200
    (cve : string) (meta : cve_meta) (url : string) (r : Response) :
  status_code r = 200%Z → keyword meta ≠ Some "" →
  match keyword meta with
  | Some kw =>
      (cve_status cve meta url (Some r) = Some "likely_present"
       ↔ ∃ pre post, text r = pre +:+ kw +:+ post) ∧
      (cve_status cve meta url (Some r) = Some "likely_present" ∨
       cve_status cve meta url (Some r) = Some "not_detected")
  | None => cve_status cve meta url (Some r) = Some "possibly_detected"
  end.
Proof.
  intros H200 Hkw. unfold cve_status, cve_classify, Response_bool.
  rewrite H200. simpl. destruct (keyword meta) as [kw|]; [|done].
  destruct kw as [|a kw]; [done|]. simpl PyStr.truthy. cbv iota.
  rewrite <-PyStr.contains_spec.
  destruct (PyStr.contains (String a kw) (text r)); simpl.
  - split; [done|by left].
  - split; [done|by right].
Qed.

(** For a CVE task whose request got no response, or a response with a
    status other than 200, the classification is [not_detected] and
    nothing is appended. *)
Lemma cve_not_detected_without_200
    (cve : string) (meta : cve_meta) (url : string) (resp : option Response) :
  outcome_status (Returns resp) ≠ Some 200%Z →
  cve_status cve meta url resp = Some "not_detected" ∧
  co_appended (cve_classify cve meta url resp) = false.
Proof.
  intros H. unfold cve_status, cve_classify. destruct resp as [r|]; [|done].
  simpl in H. destruct (Z.eqb_spec (status_code r) 200) as [E|E]; [by rewrite E in H|].
  rewrite andb_false_r. by destruct (Response_bool r).
Qed.

(** The line printed for a response with a client or server error status
    is the line printed when the request failed. *)
Lemma cve_error_status_printed_as_failure
    (cve : string) (meta : cve_meta) (url : string) (r : Response) :
  (400 ≤ status_code r < 600)%Z →
  co_printed (cve_classify cve meta url (Some r))
  = co_printed (cve_classify cve meta url None).
Proof.
  intros [H1 H2]. unfold cve_classify, Response_bool.
  destruct (Z.leb_spec 400 (status_code r)); [|lia].
  destruct (Z.ltb_spec (status_code r) 600); [|lia]. done.
Qed.

(** C4, as the code has it.  [robust_get] lets no request exception out:
    when [requests.get] raises one, for a refused connection, a DNS
    failure, a timeout or a TLS failure, it prints the description of the
    error and returns [None], an outcome with no status, no body and no
    description; when [requests.get] returns a response, it returns that
    response, with its status code and its whole body, and prints
    nothing.  An exception of another kind is not caught. *)
Theorem robust_get_contract
    (requests_get : nat → string → Z → completion Response)
    (now : nat) (url : string) (tmo : Z) :
  match requests_get now url tmo with
  | Returns r =>
      robust_get requests_get now url tmo = (Returns (Some r), []) ∧
      outcome_status (robust_get requests_get now url tmo).1 = Some (status_code r)
  | Raises (RequestException e) =>
      robust_get requests_get now url tmo
      = (Returns None, ["[Error] GET request failed for " +:+ url +:+ ": " +:+ e]) ∧
      outcome_status (robust_get requests_get now url tmo).1 = None
  | Raises (OtherException e) =>
      (robust_get requests_get now url tmo).1 = Raises (OtherException e)
  end.
Proof.
  unfold robust_get. by destruct (requests_get now url tmo) as [r|[e|e]].
Qed.

(** C4, as the claim has it, fails: two transport failures with different
    descriptions give the same outcome, [None], so the outcome does not
    carry the description. *)
Lemma robust_get_outcome_has_no_description :
  (robust_get (λ _ _ _, Raises (RequestException "Connection refused"))
     0 "http://t/admin" 7).1
  = (robust_get (λ _ _ _, Raises (RequestException "Read timed out"))
       0 "http://t/admin" 7).1 ∧
  (robust_get (λ _ _ _, Raises (RequestException "Read timed out"))
     0 "http://t/admin" 7).1 = Returns None ∧
  "Connection refused" ≠ "Read timed out".
Proof. split_and!; done. Qed.

(** C5, at a response with status 404: the classification stays
    [not_detected] and nothing is appended, but the line printed is the
    "scan failed" line of a failed request, not the line with the HTTP
    status of the [elif resp:] branch, because a [requests.Response] with
    an error status is false. *)
Theorem cve_http_404_reported_as_scan_failed :
  let meta := {| path := "/struts2-showcase/index.action";
                 keyword := Some "Apache" |} in
  let url := "http://t/struts2-showcase/index.action" in
  let r404 := {| status_code := 404; text := "Not Found" |} in
  cve_status "CVE-2017-5638" meta url (Some r404) = Some "not_detected" ∧
  co_printed (cve_classify "CVE-2017-5638" meta url (Some r404))
  = "[Warn] CVE-2017-5638 scan failed: http://t/struts2-showcase/index.action" ∧
  co_printed (cve_classify "CVE-2017-5638" meta url None)
  = "[Warn] CVE-2017-5638 scan failed: http://t/struts2-showcase/index.action" ∧
  co_printed (cve_classify "CVE-2017-5638" meta url
                (Some {| status_code := 301; text := "Moved" |}))
  = "[OK] CVE-2017-5638 not detected, http://t/struts2-showcase/index.action (HTTP 301)".
Proof. split_and!; reflexivity. Qed.

(** ** A run on a small site *)

(** The site answers [/admin] and the Struts page with status 200, does
    not answer [/.env] in time, and answers 404 everywhere else. *)
Definition demo_get (now : nat) (url : string) (tmo : Z) : completion Response :=
  if bool_decide (url = "http://t/admin") then
    Returns {| status_code := 200; text := "admin" |}
  else if bool_decide (url = "http://t/struts2-showcase/index.action") then
    Returns {| status_code := 200; text := "Powered by Apache Struts" |}
  else if bool_decide (url = "http://t/.env") then
    Raises (RequestException "Read timed out")
  else Returns {| status_code := 404; text := "Not Found" |}.

Definition demo_open (name : string) : option exn := None.

Definition demo_repr (f : pydict) : string := "{...}".

Definition demo_scanner : scanner :=
  WebVulnScanner_init "http://t//" 7 2 (Some "out.json").

(** Two workers that take turns with the main thread. *)
Definition demo_schedule : list choice :=
  concat (repeat [Main; Worker 1; Worker 0; Main] 60).

Definition demo_final : state :=
  run_schedule demo_get demo_open demo_repr demo_schedule
    (init_state demo_scanner ∅).

Lemma demo_reachable :
  reachable demo_get demo_open demo_repr demo_scanner ∅ demo_final.
Proof. apply run_schedule_reachable. Defined.

Example demo_final_findings :
  pc demo_final = MDone ∧
  findings (self demo_final)
  = [ [("type", "exposed_path"); ("url", "http://t/admin")];
      [("type", "cve_test"); ("cve", "CVE-2017-5638");
       ("url", "http://t/struts2-showcase/index.action");
       ("status", "likely_present");
       ("details", "Keyword matched in response.")] ].
Proof. split; vm_compute; reflexivity. Qed.

(** The same site scanned with one worker and with eight: the findings
    are the same two. *)
Definition demo_run (n : nat) : state :=
  run_schedule demo_get demo_open demo_repr
    (concat (repeat (Main :: map Worker (seq 0 n)) 80))
    (init_state (WebVulnScanner_init "http://t/" 7 (Z.of_nat n) None) ∅).

Example demo_one_worker :
  pc (demo_run 1) = MDone ∧
  findings (self (demo_run 1)) = findings (self demo_final).
Proof. split; vm_compute; reflexivity. Qed.

Example demo_eight_workers :
  pc (demo_run 8) = MDone ∧
  findings (self (demo_run 8)) = findings (self demo_final).
Proof. split; vm_compute; reflexivity. Qed.

(** With no worker at all the main thread waits in [pathq.join()] for
    ever: the nine tasks stay in the queue and nothing can move. *)
Example demo_no_worker :
  pc (demo_run 0) = MJoinQueue ∧ unfinished_tasks (demo_run 0) = 9 ∧
  main_step demo_get demo_open demo_repr (demo_run 0) = None ∧
  ∀ i, worker_step demo_get i (demo_run 0) = None.
Proof. split_and!; vm_compute; reflexivity. Qed.

(** A worker standing at its test with a 404 response in hand. *)
Definition demo_r404 : Response := {| status_code := 404; text := "Not Found" |}.

Definition demo_404_state : state :=
  set_workers [WCheck "/login" "http://t/login" (Some demo_r404)]
    (init_state demo_scanner ∅).

Definition demo_404_next : state :=
  default demo_404_state
    (sched_step demo_get demo_open demo_repr (Worker 0) demo_404_state).

(** ** The theorems at the small site *)

Lemma check_common_paths_records_status_200_witness :
  reachable demo_get demo_open demo_repr demo_scanner ∅ demo_final ∧
  phase1_over demo_final = true ∧
  results demo_final ≡ₚ flat_map probe_hit (wprobes (probes demo_final)).
Proof.
  split; [exact demo_reachable|]. split; [vm_compute; reflexivity|].
  apply (check_common_paths_records_status_200 demo_get demo_open demo_repr
           demo_scanner ∅ demo_final); [exact demo_reachable|vm_compute; reflexivity].
Defined.

Lemma cve_classification_status_200_witness :
  cve_status "CVE-2021-41773"
    {| path := "/cgi-bin/.%2e/%2e%2e/%2e%2e/%2e%2e/etc/passwd";
       keyword := Some "root:" |}
    "http://t/cgi-bin/.%2e/%2e%2e/%2e%2e/%2e%2e/etc/passwd"
    (Some {| status_code := 200; text := "root:x:0:0" |})
  = Some "likely_present"
  ↔ ∃ pre post, "root:x:0:0" = pre +:+ "root:" +:+ post.
Proof.
  apply (cve_classification_status_200 "CVE-2021-41773"
           {| path := "/cgi-bin/.%2e/%2e%2e/%2e%2e/%2e%2e/etc/passwd";
              keyword := Some "root:" |}
           "http://t/cgi-bin/.%2e/%2e%2e/%2e%2e/%2e%2e/etc/passwd"
           {| status_code := 200; text := "root:x:0:0" |});
    [reflexivity|discriminate].
Defined.

Lemma status_404_never_appends_witness :
  status_code demo_r404 = 404%Z ∧
  results demo_404_next = results demo_404_state ∧
  findings (self demo_404_next) = findings (self demo_404_state).
Proof.
  split; [reflexivity|].
  apply (status_404_never_appends demo_get demo_open demo_repr (Worker 0)
           demo_404_state demo_404_next demo_r404);
    [reflexivity|right; by exists "/login", "http://t/login"|reflexivity].
Defined.

Lemma export_json_roundtrip_witness :
  Forall finding_record (findings demo_scanner) ∧
  reachable demo_get demo_open demo_repr demo_scanner ∅ demo_final ∧
  Forall finding_record (findings (self demo_final)).
Proof.
  split; [apply Forall_nil_2|]. split; [exact demo_reachable|].
  apply (export_json_roundtrip demo_get demo_open demo_repr demo_scanner ∅ demo_final);
    [apply Forall_nil_2|exact demo_reachable].
Defined.

Lemma target_normalized_and_probed_witness :
  reachable demo_get demo_open demo_repr demo_scanner ∅ demo_final ∧
  target (self demo_final) = target demo_scanner.
Proof.
  split; [exact demo_reachable|].
  apply (target_normalized_and_probed demo_get demo_open demo_repr
           "http://t//" 7 2 (Some "out.json") ∅ demo_final).
  exact demo_reachable.
Defined.

Lemma cve_findings_never_not_detected_witness :
  reachable demo_get demo_open demo_repr demo_scanner ∅ demo_final ∧
  Forall (λ f, getitem "status" f ≠ Some "not_detected") (findings (self demo_final)).
Proof.
  split; [exact demo_reachable|].
  apply (cve_findings_never_not_detected demo_get demo_open demo_repr
           "http://t//" 7 2 (Some "out.json") ∅ demo_final).
  exact demo_reachable.
Defined.

(** ** More on the run: termination, hangs and crashes *)

Section MoreOnRun.

Variable requests_get : nat → string → Z → completion Response.
Variable open_w : string → option exn.
Variable repr : pydict → string.

Local Abbreviation wstep := (worker_step requests_get).
Local Abbreviation mstep := (main_step requests_get open_w repr).
Local Abbreviation step := (step requests_get open_w repr).
Local Abbreviation reachable := (reachable requests_get open_w repr).

(** Nothing can move. *)
Definition stuck (s : state) : Prop := ∀ s', ¬ step s s'.

(** Case analysis on a step of the state [s]. *)
Ltac step_cases s Hs :=
  let i := fresh "i" in
  destruct Hs as [Hs|[i Hs]];
  [ unfold main_step in Hs; destruct (pc s) eqn:?
  | unfold worker_step in Hs;
    destruct (workers s !! i) as [[]|] eqn:?; try done ];
  repeat (match type of Hs with
          | context [match ?x with _ => _ end] => destruct x eqn:?
          | context [if ?x then _ else _] => destruct x eqn:?
          end); simplify_eq/=.

Lemma nsteps_potential (n : nat) (s s' : state) :
  nsteps step n s s' → n + potential s' ≤ potential s.
Proof.
  induction 1 as [|n x y z Hxy _ IH]; [lia|].
  apply step_potential in Hxy. lia.
Qed.

(** X1. [run] cannot go on for ever: whatever the threads do and whatever
    the server answers, a run makes at most [8 * threads + 59] steps (none
    of the loops of the main thread or of a worker can be taken without
    using up a queue item, a thread or a table entry). *)
Theorem run_makes_boundedly_many_steps
    (sc : scanner) (fs : gmap string string) (n : nat) (s : state) :
  nsteps step n (init_state sc fs) s → n ≤ 8 * Z.to_nat (threads sc) + 59.
Proof.
  intros H. apply nsteps_potential in H.
  unfold potential at 2, main_weight, pool_weight in H. simpl in H. lia.
Qed.

(** X2. With a thread count of zero or less no worker is ever started and
    [check_common_paths] never returns: the main thread ends up blocked in
    [pathq.join()] with the nine tasks unfinished, no request is ever
    sent, [self.findings] stays as it was and no file is written. *)
Theorem no_threads_never_finishes
    (sc : scanner) (fs : gmap string string) (s : state) :
  (threads sc ≤ 0)%Z → reachable sc fs s →
  phase1_over s = false ∧ workers s = [] ∧ probes s = [] ∧
  findings (self s) = findings sc ∧ files s = fs ∧
  (pc s = MJoinQueue → unfinished_tasks s = 9 ∧ stuck s).
Proof.
  intros HT Hr.
  assert (Hinv : threads (self s) = threads sc ∧ workers s = [] ∧ probes s = [] ∧
                 findings (self s) = findings sc ∧ files s = fs ∧
                 (pc s = MStart ∨
                  ((pc s = MSpawn 0 ∨ pc s = MJoinQueue) ∧ unfinished_tasks s = 9))).
  { apply rtc_ind_r with (x := init_state sc fs)
      (P := λ s, threads (self s) = threads sc ∧ workers s = [] ∧ probes s = [] ∧
                 findings (self s) = findings sc ∧ files s = fs ∧
                 (pc s = MStart ∨
                  ((pc s = MSpawn 0 ∨ pc s = MJoinQueue) ∧ unfinished_tasks s = 9)))
      in Hr.
    - done.
    - simpl. auto 10.
    - clear s Hr. intros s s' _ Hs (Hthr & Hw & Hp & Hf & Hfs & Hpc).
      destruct Hs as [Hs|[i Hs]].
      + unfold main_step in Hs.
        destruct Hpc as [Hpc|[[Hpc|Hpc] Hu]]; rewrite Hpc in Hs.
        * injection Hs as <-. simpl. rewrite Hthr.
          replace (Z.to_nat (threads sc)) with 0 by lia. auto 10.
        * injection Hs as <-. simpl. auto 10.
        * by rewrite Hu in Hs.
      + unfold worker_step in Hs. by rewrite Hw in Hs. }
  destruct Hinv as (_ & Hw & Hp & Hf & Hfs & Hpc).
  split_and!; try done.
  - unfold phase1_over. by destruct Hpc as [->|[[->| ->] _]].
  - intros Hjq. destruct Hpc as [Hpc|[_ Hu]]; [congruence|].
    split; [done|]. intros s' [Hs|[i Hs]].
    + unfold main_step in Hs. by rewrite Hjq, Hu in Hs.
    + unfold worker_step in Hs. by rewrite Hw in Hs.
Qed.


Lemma died_stays (sc : scanner) (s s' : state) (i : nat) (p : string) (e : exn) :
  Inv sc s → workers s !! i = Some (WDied p e) → step s s' →
  workers s' !! i = Some (WDied p e).
Proof.
  intros [_ Hst] Hd Hs. destruct Hs as [Hs|[j Hs]].
  - unfold main_step in Hs. unfold stage_inv in Hst.
    destruct (pc s) eqn:Epc;
      repeat (match type of Hs with
              | context [match ?x with _ => _ end] => destruct x eqn:?
              | context [if ?x then _ else _] => destruct x eqn:?
              end); simplify_eq/=; try done.
    + destruct Hst as (Hw & _). by rewrite Hw in Hd.
    + by apply lookup_app_l_Some.
  - unfold worker_step in Hs.
    destruct (decide (j = i)) as [->|Hne]; [by rewrite Hd in Hs|].
    destruct (workers s !! j) as [[]|] eqn:Hj; try done;
      repeat (match type of Hs with
              | context [match ?x with _ => _ end] => destruct x eqn:?
              | context [if ?x then _ else _] => destruct x eqn:?
              end); simplify_eq/=; by rewrite list_lookup_insert_ne.
Qed.

(** X3. A worker that an uncaught exception has ended never calls
    [task_done] for the task it held, so the pool never finishes: from
    then on the thread stays dead and [check_common_paths] does not
    return, whatever the other threads do. *)
Theorem dead_worker_blocks_the_pool
    (sc : scanner) (fs : gmap string string) (s s' : state)
    (i : nat) (p : string) (e : exn) :
  reachable sc fs s → workers s !! i = Some (WDied p e) → rtc step s s' →
  workers s' !! i = Some (WDied p e) ∧ phase1_over s' = false.
Proof.
  intros Hr Hd Hss.
  assert (HQ : Inv sc s' ∧ workers s' !! i = Some (WDied p e)).
  { apply rtc_ind_r with (x := s)
      (P := λ s', Inv sc s' ∧ workers s' !! i = Some (WDied p e)) in Hss.
    - done.
    - split; [by eapply reachable_inv|done].
    - intros y z _ Hyz [HI Hy]. split; [by eapply step_inv|by eapply died_stays]. }
  destruct HQ as [HI Hd']. split; [done|].
  destruct (phase1_over s') eqn:Hov; [|done].
  pose proof (Inv_phase1_over sc s' HI Hov) as [_ _ _ Hex].
  rewrite Forall_lookup in Hex. by specialize (Hex i _ Hd').
Qed.

(** X4. [task_done] is never called too often: whenever a worker is about
    to call it, the counter of unfinished tasks is positive, so the call
    cannot raise [ValueError]. *)
Theorem task_done_never_called_too_often
    (sc : scanner) (fs : gmap string string) (s : state) (i : nat) (p : string) :
  reachable sc fs s → workers s !! i = Some (WTaskDone p) →
  0 < unfinished_tasks s.
Proof.
  intros Hr Hi. pose proof (reachable_inv _ _ _ sc fs s Hr) as HI.
  assert (Hpc : pc s ≠ MStart).
  { intros Hpc. destruct HI as [_ Hst]. unfold stage_inv in Hst.
    rewrite Hpc in Hst. destruct Hst as (Hw & _). by rewrite Hw in Hi. }
  pose proof (pi_unf _ _ (Inv_pool sc s HI Hpc)) as Hu.
  destruct (wsum_insert holding _ _ _ WGet Hi) as (rest & H1 & _).
  apply Permutation_length in H1. simpl in H1. lia.
Qed.

(** Where a run can come to a halt. *)
Lemma stuck_cases (sc : scanner) (s : state) :
  Inv sc s → stuck s →
  run_over s = true ∨
  (pc s = MJoinQueue ∧ 0 < unfinished_tasks s ∧
   (workers s = [] ∨ wsum died (workers s) ≠ [])).
Proof.
  intros [Hcfg Hst] Hstuck.
  assert (Hmain : is_Some (mstep s) → False).
  { intros [s' H]. apply (Hstuck s'). by left. }
  assert (Hwork : ∀ i, is_Some (wstep i s) → False).
  { intros i [s' H]. apply (Hstuck s'). right. by exists i. }
  unfold stage_inv in Hst. unfold run_over.
  destruct (pc s) as [|k| |k|i| | |todo| | | |e] eqn:Epc; try (by left);
    try (exfalso; apply Hmain; unfold main_step; rewrite Epc; by eauto).
  - exfalso. apply Hmain. unfold main_step. rewrite Epc. destruct k; eauto.
  - (* MJoinQueue *)
    right. split; [done|].
    destruct Hst as (Hpool & Hf & Hc & Hlen & Hsen & Hex).
    destruct (unfinished_tasks s) as [|n] eqn:Eu.
    { exfalso. apply Hmain. unfold main_step. rewrite Epc, Eu. eauto. }
    split; [lia|].
    destruct (workers s) as [|w ws] eqn:Ew; [by left|]. right. rewrite <-Ew in *.
    intros Hnd. 
    destruct (wsum holding (workers s)) as [|h hs] eqn:Eh.
    + pose proof (pi_unf _ _ Hpool) as Hu. rewrite Eu, Eh, Hsen, Hex in Hu.
      simpl in Hu.
      assert (Hw0 : workers s !! 0 = Some w) by by rewrite Ew.
      pose proof (wsum_nil_inv holding (workers s) 0 w Eh Hw0) as Hhw.
      pose proof (wsum_nil_inv exited (workers s) 0 w Hex Hw0) as Hxw.
      apply (Hwork 0). unfold worker_step. rewrite Hw0.
      destruct w; try done.
      destruct (pathq s) as [|[p|] q] eqn:Eq; [simpl in Hu; lia|eauto|done].
    + assert (Hne : wsum holding (workers s) ≠ []) by by rewrite Eh.
      apply wsum_cons_inv in Hne as (i & w' & Hi & Hw).
      pose proof (wsum_nil_inv died _ _ _ Hnd Hi) as Hdw.
      apply (Hwork i). unfold worker_step. rewrite Hi.
      destruct w' as [|p|p url resp|p| |p e]; try done.
      * destruct (robust_get _ _ _ _) as [[resp|e] lines]; eauto.
      * destruct (resp_and_200 resp); eauto.
      * destruct (unfinished_tasks s); eauto.
  - exfalso. apply Hmain. unfold main_step. rewrite Epc. destruct k; eauto.
  - (* MJoinThreads *)
    exfalso.
    destruct Hst as (Hpool & Hf & Hc & Hlen & [Hq Hh] & Hsen & Hpre).
    destruct (workers s !! i) as [w|] eqn:Hi.
    2:{ apply Hmain. unfold main_step. rewrite Epc, Hi. eauto. }
    destruct (finished w) eqn:Hfin.
    { apply Hmain. unfold main_step. rewrite Epc, Hi, Hfin. eauto. }
    pose proof (wsum_nil_inv holding _ _ _ Hh Hi) as Hhw.
    apply (Hwork i). unfold worker_step. rewrite Hi.
    destruct w; try done.
    destruct (wsum_insert idle _ _ _ WGet Hi) as (rest & H1 & _).
    apply Permutation_length in H1. simpl in H1.
    destruct (pathq s) as [|[p|] q] eqn:Eq; [simpl in Hsen; lia|done|eauto].
  - (* MCve *)
    exfalso. apply Hmain. unfold main_step. rewrite Epc.
    destruct todo as [|[cve meta] todo]; [eauto|].
    destruct (robust_get _ _ _ _) as [[resp|e] lines]; eauto.
  - (* MSave *)
    exfalso. apply Hmain. unfold main_step. rewrite Epc.
    destruct (PyStr.truthy _); [|eauto]. destruct (open_w _); eauto.
Qed.

(** X5. The only way for [run] to hang is the main thread blocked in
    [pathq.join()]: a reachable state in which nothing can move is the end
    of the run (it returned, or an exception left it), or the main thread
    waits in [pathq.join()] for unfinished tasks while there is no worker
    thread at all or some worker has died. *)
Theorem run_hangs_only_in_queue_join
    (sc : scanner) (fs : gmap string string) (s : state) :
  reachable sc fs s → stuck s →
  run_over s = true ∨
  (pc s = MJoinQueue ∧ 0 < unfinished_tasks s ∧
   (workers s = [] ∨ wsum died (workers s) ≠ [])).
Proof.
  intros Hr Hst. apply (stuck_cases sc); [by eapply reachable_inv|done].
Qed.

(** Nothing leaves [run] as an exception when the HTTP client raises
    request exceptions only and the output file, if one is asked for, can
    be opened. *)
Lemma reachable_no_crash (sc : scanner) (fs : gmap string string) (s : state) :
  only_request_exceptions requests_get →
  (PyStr.truthy (integration_output sc) = true →
   open_w (default "" (integration_output sc)) = None) →
  reachable sc fs s → ∀ e, pc s ≠ MCrashed e.
Proof.
  intros Hnet Hopen Hr.
  assert (HQ : Inv sc s ∧ ∀ e, pc s ≠ MCrashed e); [|by destruct HQ].
  apply rtc_ind_r with (x := init_state sc fs)
    (P := λ s, Inv sc s ∧ ∀ e, pc s ≠ MCrashed e) in Hr.
  - done.
  - split; [apply init_inv|done].
  - clear s Hr. intros s s' _ Hs [HI Hpc].
    split; [by eapply step_inv|].
    destruct HI as [(_ & _ & _ & Hout) _].
    destruct Hs as [Hs|[i Hs]].
    + unfold main_step in Hs. destruct (pc s) eqn:Epc;
        repeat (match type of Hs with
                | context [match ?x with _ => _ end] => destruct x eqn:?
                | context [if ?x then _ else _] => destruct x eqn:?
                end); simplify_eq/=; try done.
      * match goal with
        | H : robust_get _ ?n ?u ?t = (Raises _, _) |- _ =>
            destruct (robust_get_returns requests_get n u t Hnet) as (? & ? & H');
            rewrite H' in H; discriminate H
        end.
      * rewrite Hout in *. 
        match goal with
        | H : open_w _ = Some _ |- _ => rewrite Hopen in H by done; discriminate H
        end.
    + unfold worker_step in Hs.
      destruct (workers s !! i) as [[]|] eqn:Hi; try done;
        repeat (match type of Hs with
                | context [match ?x with _ => _ end] => destruct x eqn:?
                | context [if ?x then _ else _] => destruct x eqn:?
                end); simplify_eq/=; done.
Qed.

(** A run that is not over can be carried on to its end. *)
Lemma run_completes (sc : scanner) (fs : gmap string string) (s : state) :
  (0 < threads sc)%Z → only_request_exceptions requests_get →
  reachable sc fs s → ∃ s', rtc step s s' ∧ run_over s' = true.
Proof.
  intros HT Hnet.
  assert (H : ∀ n s0, potential s0 ≤ n → reachable sc fs s0 →
                      ∃ s', rtc step s0 s' ∧ run_over s' = true).
  { induction n as [|n IH]; intros s0 Hn Hr;
      (destruct (run_over s0) eqn:Hov; [by exists s0|]);
      destruct (progress requests_get open_w repr sc s0 HT
                  (reachable_inv _ _ _ sc fs s0 Hr)
                  (reachable_nodied _ _ _ sc fs s0 Hnet Hr) Hnet Hov) as [s1 Hs1];
      pose proof (step_potential _ _ _ _ _ Hs1) as Hlt; [lia|].
    destruct (IH s1) as (s' & Hs' & Hover); [lia|by eapply rtc_r|].
    exists s'. split; [by eapply rtc_l|done]. }
  intros Hr. by apply (H (potential s)).
Qed.

(** X6. [run] returns: with a positive thread count, an HTTP client that
    raises request exceptions only and an output file that can be opened
    (when one is asked for), a run that can go no further has reached the
    end of [run], past the export and the final report. *)
Theorem run_returns
    (sc : scanner) (fs : gmap string string) (s : state) :
  (0 < threads sc)%Z → only_request_exceptions requests_get →
  (PyStr.truthy (integration_output sc) = true →
   open_w (default "" (integration_output sc)) = None) →
  reachable sc fs s → stuck s → pc s = MDone.
Proof.
  intros HT Hnet Hopen Hr Hst.
  pose proof (reachable_inv _ _ _ sc fs s Hr) as HI.
  destruct (stuck_cases sc s HI Hst) as [Hover|(Hpc & _ & [Hw|Hd])].
  - unfold run_over in Hover. destruct (pc s) eqn:Epc; try done.
    by destruct (reachable_no_crash sc fs s Hnet Hopen Hr e).
  - destruct HI as [_ Hsi]. unfold stage_inv in Hsi. rewrite Hpc in Hsi.
    destruct Hsi as (_ & _ & _ & Hlen & _). rewrite Hw in Hlen. simpl in Hlen. lia.
  - destruct Hd. by eapply reachable_nodied.
Qed.


Lemma worker_step_pc (i : nat) (s s' : state) :
  wstep i s = Some s' → pc s' = pc s ∧ self s' = self s.
Proof.
  intros Hs. unfold worker_step in Hs.
  destruct (workers s !! i) as [[]|] eqn:Hi; try done;
    repeat (match type of Hs with
            | context [match ?x with _ => _ end] => destruct x eqn:?
            | context [if ?x then _ else _] => destruct x eqn:?
            end); simplify_eq/=; done.
Qed.

(** ** More on the run: files, output and requests *)

(** What the files are at any moment of a run. *)
Lemma files_effect
    (sc : scanner) (fs : gmap string string) (s : state) :
  reachable sc fs s →
  files s =
    if export_done s && PyStr.truthy (integration_output sc)
    then <[default "" (integration_output sc)
           := Json.dumps (Json.of_findings (findings (self s)))]> fs
    else fs.
Proof.
  intros Hr.
  assert (HQ : integration_output (self s) = integration_output sc ∧
               files s =
                 if export_done s && PyStr.truthy (integration_output sc)
                 then <[default "" (integration_output sc)
                        := Json.dumps (Json.of_findings (findings (self s)))]> fs
                 else fs); [|by destruct HQ].
  apply rtc_ind_r with (x := init_state sc fs)
    (P := λ s, integration_output (self s) = integration_output sc ∧
               files s =
                 if export_done s && PyStr.truthy (integration_output sc)
                 then <[default "" (integration_output sc)
                        := Json.dumps (Json.of_findings (findings (self s)))]> fs
                 else fs) in Hr.
  - done.
  - done.
  - clear s Hr. intros s s' _ Hs [Hout Hf]. unfold export_done in *.
    destruct Hs as [Hs|[i Hs]].
    + unfold main_step in Hs. destruct (pc s) eqn:Epc;
        repeat (match type of Hs with
                | context [match ?x with _ => _ end] => destruct x eqn:?
                | context [if ?x then _ else _] => destruct x eqn:?
                end); simplify_eq/=; rewrite ?Hout in *; try done.
      * match goal with H : PyStr.truthy _ = true |- _ => by rewrite H end.
      * match goal with H : PyStr.truthy _ = false |- _ => by rewrite H end.
    + unfold worker_step in Hs.
      destruct (workers s !! i) as [[]|] eqn:Hi; try done;
        repeat (match type of Hs with
                | context [match ?x with _ => _ end] => destruct x eqn:?
                | context [if ?x then _ else _] => destruct x eqn:?
                end); simplify_eq/=; try done.
      all: destruct (pc s); done.
Qed.

(** X7. The only file [run] ever touches is the output file, and only in
    a successful export: at any moment the files are the initial ones,
    except once [save_results_json] has run with a non-empty output name,
    when that one file holds the JSON text of [self.findings].  With no
    output name ([None] or the empty string), or when the run hangs or
    ends with an exception, no file is written. *)
Theorem run_writes_only_the_output_file
    (sc : scanner) (fs : gmap string string) (s : state) :
  reachable sc fs s →
  files s =
    if export_done s && PyStr.truthy (integration_output sc)
    then <[default "" (integration_output sc)
           := Json.dumps (Json.of_findings (findings (self s)))]> fs
    else fs.
Proof. apply files_effect. Qed.

(** A line that starts with an opening bracket: every progress line does. *)
Definition bracketed (l : string) : Prop := ∃ x, l = String "[" x.

Lemma robust_get_lines (now : nat) (url : string) (tmo : Z)
    (r : completion (option Response)) (lines : list string) :
  robust_get requests_get now url tmo = (r, lines) → Forall bracketed lines.
Proof.
  unfold robust_get. destruct (requests_get now url tmo) as [resp|[e|e]];
    intros [= <- <-]; repeat constructor. by eexists.
Qed.

Lemma co_printed_bracketed (cve : string) (meta : cve_meta) (url : string)
    (resp : option Response) :
  bracketed (co_printed (cve_classify cve meta url resp)).
Proof.
  unfold cve_classify. destruct resp as [r|]; [|by eexists].
  destruct (Response_bool r && (status_code r =? 200)%Z).
  - destruct (keyword meta) as [kw|]; [|by eexists].
    destruct (PyStr.truthy (Some kw)); [|by eexists].
    destruct (PyStr.contains kw (text r)); by eexists.
  - destruct (Response_bool r); by eexists.
Qed.

Lemma bracketed_not_summary (l : list string) :
  Forall bracketed l → "Findings:" ∉ l.
Proof.
  intros H Hin. rewrite Forall_forall in H. by destruct (H _ Hin) as [x Hx].
Qed.

Ltac solve_bracketed :=
  first [ by eapply robust_get_lines
        | repeat constructor; first [apply co_printed_bracketed | by eexists] ].

Ltac no_summary IH Hin :=
  repeat (apply elem_of_app in Hin as [Hin|Hin]);
  first [ by apply IH in Hin
        | by (apply bracketed_not_summary in Hin; [done|solve_bracketed]) ].

(** The line [Findings:] is printed by the final report only. *)
Lemma summary_only_at_done (sc : scanner) (fs : gmap string string) (s : state) :
  reachable sc fs s → "Findings:" ∈ stdout s → pc s = MDone.
Proof.
  intros Hr. apply rtc_ind_r with (x := init_state sc fs)
    (P := λ s, "Findings:" ∈ stdout s → pc s = MDone) in Hr; [done| |].
  - simpl. by intros ?%elem_of_nil.
  - clear s Hr. intros s s' _ Hs IH.
    destruct Hs as [Hs|[i Hs]].
    + unfold main_step in Hs. destruct (pc s) eqn:Epc;
        repeat (match type of Hs with
                | context [match ?x with _ => _ end] => destruct x eqn:?
                | context [if ?x then _ else _] => destruct x eqn:?
                end); simplify_eq/=; try done; intros Hin; no_summary IH Hin.
    + unfold worker_step in Hs.
      destruct (workers s !! i) as [[]|] eqn:Hi; try done;
        repeat (match type of Hs with
                | context [match ?x with _ => _ end] => destruct x eqn:?
                | context [if ?x then _ else _] => destruct x eqn:?
                end); simplify_eq/=; intros Hin; no_summary IH Hin.
Qed.

(** An exception that leaves [run] when the HTTP client raises request
    exceptions only is the one [open] raised, after the whole CVE loop. *)
Lemma crash_is_open_failure
    (sc : scanner) (fs : gmap string string) (s : state) (e e' : exn) :
  only_request_exceptions requests_get →
  open_w (default "" (integration_output sc)) = Some e →
  reachable sc fs s → pc s = MCrashed e' →
  e' = e ∧ length (cprobes (probes s)) = length CVE_PATHS.
Proof.
  intros Hnet Hop Hr.
  assert (HQ : Inv sc s ∧
               ∀ e', pc s = MCrashed e' →
                     e' = e ∧ length (cprobes (probes s)) = length CVE_PATHS);
    [|destruct HQ as [_ HQ]; apply HQ].
  clear e'.
  apply rtc_ind_r with (x := init_state sc fs)
    (P := λ s, Inv sc s ∧
               ∀ e', pc s = MCrashed e' →
                     e' = e ∧ length (cprobes (probes s)) = length CVE_PATHS) in Hr.
  - done.
  - split; [apply init_inv|done].
  - clear s Hr. intros s s' _ Hs [HI Hc].
    split; [by eapply step_inv|].
    destruct HI as [(_ & _ & _ & Hout) Hst]. unfold stage_inv in Hst.
    destruct Hs as [Hs|[i Hs]].
    + unfold main_step in Hs. destruct (pc s) eqn:Epc;
        repeat (match type of Hs with
                | context [match ?x with _ => _ end] => destruct x eqn:?
                | context [if ?x then _ else _] => destruct x eqn:?
                end); simplify_eq/=; try done.
      * match goal with
        | H : robust_get _ ?n ?u ?t = (Raises _, _) |- _ =>
            destruct (robust_get_returns requests_get n u t Hnet) as (? & ? & H');
            rewrite H' in H; discriminate H
        end.
      * intros e' He'. injection He' as <-. rewrite Hout in *.
        destruct Hst as (_ & _ & Hn). split; [congruence|done].
    + destruct (worker_step_pc i s s' Hs) as [Hpc _].
      intros e' He'. rewrite Hpc in He'. rewrite He' in Hst.
      destruct Hst as ([_ _ _ Hex] & _).
      by rewrite (worker_step_exit requests_get i s Hex) in Hs.
Qed.

(** X8. When an output file is asked for and cannot be opened, [run] ends
    with the exception of [open] before the final report: the export is
    never done, no file is written and the [Findings:] summary is never
    printed, and a run that is over ended with an exception.  When the
    HTTP client raises request exceptions only, the exception that ends
    the run is the one [open] raised and both scans were made before:
    the twelve requests were sent, those of the workers to the common
    paths and then those of the CVE loop in the order of the table, and
    [self.findings] holds the findings of both scans.  With a positive
    thread count as well, a run that is not over can make a step, and can
    be carried on to that end. *)
Theorem export_failure_loses_the_report
    (sc : scanner) (fs : gmap string string) (s : state) (e : exn) :
  PyStr.truthy (integration_output sc) = true →
  open_w (default "" (integration_output sc)) = Some e →
  reachable sc fs s →
  export_done s = false ∧ pc s ≠ MDone ∧ files s = fs ∧
  ("Findings:" ∉ stdout s) ∧
  (run_over s = true → ∃ e', pc s = MCrashed e') ∧
  (only_request_exceptions requests_get →
     (run_over s = true → pc s = MCrashed e) ∧
     (∀ e', pc s = MCrashed e' →
        e' = e ∧ length (probes s) = 12 ∧
        probes s = wprobes (probes s) ++ cprobes (probes s) ∧
        pr_url <$> wprobes (probes s) ≡ₚ (λ p, target sc +:+ p) <$> COMMON_PATHS ∧
        pr_url <$> cprobes (probes s) = cve_url (target sc) <$> CVE_PATHS ∧
        results s ≡ₚ flat_map probe_hit (wprobes (probes s)) ∧
        findings (self s)
        = findings sc ++ results s
          ++ cve_hits (zip CVE_PATHS (cprobes (probes s)))) ∧
     ((0 < threads sc)%Z →
        (run_over s = false → ∃ s', step s s') ∧
        ∃ s', rtc step s s' ∧ pc s' = MCrashed e)).
Proof.
  intros Htr Hop Hr.
  assert (HQ : ∀ s, reachable sc fs s → Inv sc s ∧ export_done s = false).
  { clear s Hr. intros s Hr.
    apply rtc_ind_r with (x := init_state sc fs)
      (P := λ s, Inv sc s ∧ export_done s = false) in Hr.
    - done.
    - split; [apply init_inv|done].
    - clear s Hr. intros s s' _ Hs [HI Hed].
      split; [by eapply step_inv|].
      destruct HI as [(_ & _ & _ & Hout) _]. unfold export_done in *.
      destruct Hs as [Hs|[i Hs]].
      + unfold main_step in Hs. destruct (pc s) eqn:Epc;
          repeat (match type of Hs with
                  | context [match ?x with _ => _ end] => destruct x eqn:?
                  | context [if ?x then _ else _] => destruct x eqn:?
                  end); simplify_eq/=; try done; rewrite Hout in *; congruence.
      + unfold worker_step in Hs.
        destruct (workers s !! i) as [[]|] eqn:Hi; try done;
          repeat (match type of Hs with
                  | context [match ?x with _ => _ end] => destruct x eqn:?
                  | context [if ?x then _ else _] => destruct x eqn:?
                  end); simplify_eq/=; done. }
  assert (Hnd : ∀ s, reachable sc fs s → pc s ≠ MDone).
  { intros s0 Hr0 Hpc. destruct (HQ s0 Hr0) as [_ Hed].
    unfold export_done in Hed. by rewrite Hpc in Hed. }
  assert (Hcr : only_request_exceptions requests_get →
                ∀ s, reachable sc fs s → run_over s = true → pc s = MCrashed e).
  { intros Hnet s0 Hr0 Hov. pose proof (Hnd s0 Hr0) as Hn0.
    unfold run_over in Hov. destruct (pc s0) eqn:Epc; try done.
    by destruct (crash_is_open_failure sc fs s0 e e0 Hnet Hop Hr0 Epc) as [-> _]. }
  destruct (HQ s Hr) as [HI Hed].
  split_and!; try done.
  - by apply Hnd.
  - rewrite (files_effect sc fs s Hr), Hed. done.
  - intros Hin. by apply (Hnd s Hr), (summary_only_at_done sc fs).
  - pose proof (Hnd s Hr) as Hn. unfold run_over. destruct (pc s); try done. eauto.
  - intros Hnet. split; [|split].
    + by apply Hcr.
    + intros e' Hpc.
      destruct (crash_is_open_failure sc fs s e e' Hnet Hop Hr Hpc) as [-> Hn].
      assert (Hov : phase1_over s = true) by (unfold phase1_over; by rewrite Hpc).
      pose proof (Inv_phase1_over sc s HI Hov) as Hpo.
      destruct (pool_over_facts sc s Hpo) as (Hd & _ & Hp & Hres).
      assert (Hw : pr_url <$> wprobes (probes s)
                   ≡ₚ (λ p, target sc +:+ p) <$> COMMON_PATHS).
      { rewrite <-by_url_urls, Hp, tag_url_paths. by rewrite Hd. }
      destruct HI as [_ Hst]. unfold stage_inv in Hst. rewrite Hpc in Hst.
      destruct Hst as (_ & [Hurls Hfd]).
      rewrite Hn, firstn_all in Hurls.
      pose proof (pi_order _ _ (po_pool _ _ Hpo)) as Ho.
      split_and!; try done.
      rewrite Ho, length_app, Hn.
      apply Permutation_length in Hw. rewrite !length_fmap in Hw. rewrite Hw. done.
    + intros HT. split.
      * intros Hov. apply (progress requests_get open_w repr sc s); try done.
        by eapply reachable_nodied.
      * destruct (run_completes sc fs s HT Hnet Hr) as (s' & Hs' & Hov).
        exists s'. split; [done|].
        apply Hcr; [done| |done]. by eapply rtc_trans.
Qed.

(** X9. When [run] returns, the last lines printed are the final report:
    an empty line, the [Done] line, [Findings:], and then one line for
    each finding of [self.findings], in order. *)
Theorem final_report_lists_the_findings
    (sc : scanner) (fs : gmap string string) (s : state) :
  reachable sc fs s → pc s = MDone →
  ∃ before,
    stdout s = before
               ++ [""; "[Done] Vulnerability scanning complete."; "Findings:"]
               ++ map (λ f, "   " +:+ repr f) (findings (self s)).
Proof.
  intros Hr.
  apply rtc_ind_r with (x := init_state sc fs)
    (P := λ s, pc s = MDone →
               ∃ before,
                 stdout s = before
                   ++ [""; "[Done] Vulnerability scanning complete."; "Findings:"]
                   ++ map (λ f, "   " +:+ repr f) (findings (self s))) in Hr;
    [done|done|].
  clear s Hr. intros s s' Hr Hs _ Hpc.
  pose proof (reachable_inv _ _ _ sc fs s Hr) as HI.
  destruct Hs as [Hs|[i Hs]].
  - unfold main_step in Hs. destruct (pc s) eqn:Epc;
      repeat (match type of Hs with
              | context [match ?x with _ => _ end] => destruct x eqn:?
              | context [if ?x then _ else _] => destruct x eqn:?
              end); simplify_eq/=. by eexists.
  - pose proof Hs as Hs'. 
    destruct (worker_step_pc i s s' Hs) as [Hpc' _].
    rewrite Hpc' in Hpc. destruct HI as [_ Hst]. unfold stage_inv in Hst.
    rewrite Hpc in Hst. destruct Hst as ([_ _ _ Hex] & _).
    by rewrite (worker_step_exit requests_get i s Hex) in Hs.
Qed.


(** ** More on the run: one request and at most one finding per task *)

(** X10. [run] sends exactly one request per task, with no retry: when
    the CVE loop is over the request log holds twelve requests, one to
    the target followed by each common path and one to the target
    followed by the path of each CVE entry; the log is the requests of
    the workers followed by those of the CVE loop, which come last and in
    the order of the table; every request of the first part was sent by a
    worker and every request of the second by the main thread. *)
Theorem one_request_per_task
    (sc : scanner) (fs : gmap string string) (s : state) :
  reachable sc fs s → cve_done s = true →
  length (probes s) = 12 ∧
  pr_url <$> probes s
  ≡ₚ ((λ p, target sc +:+ p) <$> COMMON_PATHS) ++ (cve_url (target sc) <$> CVE_PATHS) ∧
  pr_url <$> cprobes (probes s) = cve_url (target sc) <$> CVE_PATHS ∧
  probes s = wprobes (probes s) ++ cprobes (probes s) ∧
  pr_url <$> wprobes (probes s) ≡ₚ (λ p, target sc +:+ p) <$> COMMON_PATHS ∧
  Forall (λ pr, is_Some (pr_by pr)) (wprobes (probes s)) ∧
  Forall (λ pr, pr_by pr = None) (cprobes (probes s)).
Proof.
  intros Hr Hcd. pose proof (reachable_inv _ _ _ sc fs s Hr) as HI.
  assert (Hov : phase1_over s = true).
  { unfold cve_done in Hcd. unfold phase1_over. by destruct (pc s). }
  pose proof (Inv_phase1_over sc s HI Hov) as Hpo.
  destruct (pool_over_facts sc s Hpo) as (Hd & _ & Hp & _).
  assert (Hw : pr_url <$> wprobes (probes s) ≡ₚ (λ p, target sc +:+ p) <$> COMMON_PATHS).
  { rewrite <-by_url_urls, Hp, tag_url_paths. by rewrite Hd. }
  assert (Hc : cve_inv sc s ∧ length (cprobes (probes s)) = length CVE_PATHS).
  { destruct HI as [_ Hst]. unfold stage_inv in Hst. unfold cve_done in Hcd.
    destruct (pc s); try done.
    - by destruct Hst as (_ & ? & ?).
    - by destruct Hst as (_ & ? & ? & _).
    - by destruct Hst as (_ & ? & ? & _). }
  destruct Hc as [[Hurls _] Hn].
  rewrite Hn, firstn_all in Hurls.
  pose proof (pi_order _ _ (po_pool _ _ Hpo)) as Ho.
  split_and!.
  - rewrite Ho, length_app, Hn.
    apply Permutation_length in Hw. rewrite !length_fmap in Hw. rewrite Hw. done.
  - rewrite Ho, fmap_app, Hw, Hurls. done.
  - done.
  - done.
  - done.
  - apply Forall_forall. intros pr Hin.
    apply elem_of_wprobes in Hin as [_ (i & Hi)]. by rewrite Hi.
  - apply Forall_forall. intros pr Hin.
    by apply elem_of_cprobes in Hin as [_ Hi].
Qed.

Lemma hit_urls (l : list probe) :
  getitem "url" <$> flat_map probe_hit l ⊆+ (λ pr, Some (pr_url pr)) <$> l.
Proof.
  induction l as [|pr l IH]; simpl; [done|].
  rewrite fmap_app. unfold probe_hit at 1, hit.
  destruct (pr_result pr) as [resp|e]; simpl; [|by apply submseteq_cons].
  destruct (resp_and_200 resp); simpl; [by apply submseteq_skip|by apply submseteq_cons].
Qed.

Lemma cve_hits_ids (es : list (string * cve_meta)) (ps : list probe) :
  getitem "cve" <$> cve_hits (zip es ps) `sublist_of` (λ e, Some e.1) <$> es.
Proof.
  revert ps. induction es as [|e es IH]; intros ps; [done|].
  destruct ps as [|pr ps]; simpl; [apply sublist_nil_l|].
  unfold cve_hits in *. simpl. rewrite fmap_app. unfold cve_hit at 1. simpl.
  destruct (pr_result pr) as [resp|ex]; simpl; [|apply sublist_cons, IH].
  destruct (co_appended _) eqn:E; simpl; [|apply sublist_cons, IH].
  destruct (cve_classify_appended _ _ _ _ E) as (st & dt & -> & _). simpl.
  apply sublist_skip, IH.
Qed.

(** X11. Each task yields at most one finding: when the CVE loop is over,
    [self.findings] is the initial list, then exposed-path findings whose
    URLs are distinct common-path URLs of the target (a sub-multiset of
    them), then CVE findings whose identifiers follow the order of the
    table without repetition (a sublist of its identifiers); so a run
    adds at most twelve findings. *)
Theorem at_most_one_finding_per_task
    (sc : scanner) (fs : gmap string string) (s : state) :
  reachable sc fs s → cve_done s = true →
  ∃ P C,
    findings (self s) = findings sc ++ P ++ C ∧
    getitem "url" <$> P ⊆+ (λ p, Some (target sc +:+ p)) <$> COMMON_PATHS ∧
    getitem "cve" <$> C `sublist_of` (λ e, Some e.1) <$> CVE_PATHS ∧
    length P + length C ≤ 12.
Proof.
  intros Hr Hcd. pose proof (reachable_inv _ _ _ sc fs s Hr) as HI.
  assert (Hov : phase1_over s = true).
  { unfold cve_done in Hcd. unfold phase1_over. by destruct (pc s). }
  pose proof (Inv_phase1_over sc s HI Hov) as Hpo.
  destruct (pool_over_facts sc s Hpo) as (Hd & _ & Hp & Hres).
  assert (Hc : cve_inv sc s).
  { apply Inv_cve; [done|done|]. unfold cve_done in Hcd. by destruct (pc s). }
  destruct Hc as [_ Hfs].
  exists (results s), (cve_hits (zip CVE_PATHS (cprobes (probes s)))).
  assert (HP : getitem "url" <$> results s
               ⊆+ (λ p, Some (target sc +:+ p)) <$> COMMON_PATHS).
  { rewrite Hres. etrans; [apply hit_urls|].
    assert (Hw : pr_url <$> wprobes (probes s)
                 ≡ₚ (λ p, target sc +:+ p) <$> COMMON_PATHS).
    { rewrite <-by_url_urls, Hp, tag_url_paths. by rewrite Hd. }
    rewrite (list_fmap_compose pr_url Some), Hw, <-list_fmap_compose. done. }
  pose proof (cve_hits_ids CVE_PATHS (cprobes (probes s))) as HC.
  split_and!; [done|done|done|].
  apply submseteq_length in HP. apply sublist_length in HC.
  repeat rewrite length_fmap in HP. repeat rewrite length_fmap in HC.
  change (length COMMON_PATHS) with 9 in HP.
  change (length CVE_PATHS) with 3 in HC. unfold pydict in *. lia.
Qed.

(** ** A server whose answers do not depend on time *)

(** The answer to a request does not depend on how many were sent before. *)
Definition time_independent : Prop :=
  ∀ n m url tmo, requests_get n url tmo = requests_get m url tmo.

(** What [robust_get] returns for a URL, at any time. *)
Definition answer (tmo : Z) (url : string) : completion (option Response) :=
  (robust_get requests_get 0 url tmo).1.

(** The exposed-path finding of a common path, if there is one. *)
Definition expected_path (sc : scanner) (p : string) : list pydict :=
  match answer (timeout sc) (target sc +:+ p) with
  | Returns resp => hit (target sc +:+ p) resp
  | Raises _ => []
  end.

(** The finding of a CVE entry, if there is one. *)
Definition expected_cve (sc : scanner) (e : string * cve_meta) : list pydict :=
  match answer (timeout sc) (cve_url (target sc) e) with
  | Returns resp =>
      let o := cve_classify e.1 e.2 (cve_url (target sc) e) resp in
      if co_appended o then [co_finding o] else []
  | Raises _ => []
  end.

(** Every logged outcome is what [robust_get] returned for the logged URL. *)
Lemma probes_consistent (sc : scanner) (fs : gmap string string) (s : state) :
  reachable sc fs s →
  Forall (λ pr, ∃ now,
            pr_result pr = (robust_get requests_get now (pr_url pr) (timeout sc)).1)
         (probes s).
Proof.
  intros Hr.
  assert (HQ : Inv sc s ∧
               Forall (λ pr, ∃ now,
                         pr_result pr
                         = (robust_get requests_get now (pr_url pr) (timeout sc)).1)
                      (probes s)); [|by destruct HQ].
  apply rtc_ind_r with (x := init_state sc fs)
    (P := λ s, Inv sc s ∧
               Forall (λ pr, ∃ now,
                         pr_result pr
                         = (robust_get requests_get now (pr_url pr) (timeout sc)).1)
                      (probes s)) in Hr.
  - done.
  - split; [apply init_inv|done].
  - clear s Hr. intros s s' _ Hs [HI Hp].
    split; [by eapply step_inv|].
    destruct HI as [(_ & Htmo & _ & _) _].
    destruct Hs as [Hs|[i Hs]].
    + unfold main_step in Hs. destruct (pc s) eqn:Epc;
        repeat (match type of Hs with
                | context [match ?x with _ => _ end] => destruct x eqn:?
                | context [if ?x then _ else _] => destruct x eqn:?
                end); simplify_eq/=; try done;
        (apply Forall_app; split; [done|]); repeat constructor; simpl;
        match goal with
        | H : robust_get _ ?n _ _ = _ |- _ => exists n; rewrite <-Htmo, H; done
        end.
    + unfold worker_step in Hs.
      destruct (workers s !! i) as [[]|] eqn:Hi; try done;
        repeat (match type of Hs with
                | context [match ?x with _ => _ end] => destruct x eqn:?
                | context [if ?x then _ else _] => destruct x eqn:?
                end); simplify_eq/=; try done;
        (apply Forall_app; split; [done|]); repeat constructor; simpl;
        match goal with
        | H : robust_get _ ?n _ _ = _ |- _ => exists n; rewrite <-Htmo, H; done
        end.
Qed.

Lemma robust_get_time (n : nat) (url : string) (tmo : Z) :
  time_independent → (robust_get requests_get n url tmo).1 = answer tmo url.
Proof. intros Ht. unfold answer, robust_get. by rewrite (Ht n 0). Qed.

(** The findings of a finished scan of such a server. *)
Lemma findings_when_done
    (sc : scanner) (fs : gmap string string) (s : state) :
  time_independent → reachable sc fs s → cve_done s = true →
  ∃ P,
    findings (self s) = findings sc ++ P ++ flat_map (expected_cve sc) CVE_PATHS ∧
    P ≡ₚ flat_map (expected_path sc) COMMON_PATHS.
Proof.
  intros Ht Hr Hcd. pose proof (reachable_inv _ _ _ sc fs s Hr) as HI.
  pose proof (probes_consistent sc fs s Hr) as Hcons.
  assert (Hov : phase1_over s = true).
  { unfold cve_done in Hcd. unfold phase1_over. by destruct (pc s). }
  pose proof (Inv_phase1_over sc s HI Hov) as Hpo.
  destruct (pool_over_facts sc s Hpo) as (Hd & _ & Hp & Hres).
  assert (Hw : pr_url <$> wprobes (probes s) ≡ₚ (λ p, target sc +:+ p) <$> COMMON_PATHS).
  { rewrite <-by_url_urls, Hp, tag_url_paths. by rewrite Hd. }
  assert (Hc : cve_inv sc s ∧ length (cprobes (probes s)) = length CVE_PATHS).
  { destruct HI as [_ Hst]. unfold stage_inv in Hst. unfold cve_done in Hcd.
    destruct (pc s); try done.
    - by destruct Hst as (_ & ? & ?).
    - by destruct Hst as (_ & ? & ? & _).
    - by destruct Hst as (_ & ? & ? & _). }
  destruct Hc as [[Hurls Hfs] Hn]. rewrite Hn, firstn_all in Hurls.
  rewrite (pi_order _ _ (po_pool _ _ Hpo)) in Hcons.
  apply Forall_app in Hcons as [Hcw Hcc].
  exists (results s). split.
  - rewrite Hfs. do 2 f_equal. clear Hn Hfs.
    revert Hurls Hcc. generalize (cprobes (probes s)) as ps.
    generalize CVE_PATHS as es.
    induction es as [|e es IH]; intros ps Hurls Hcc; [done|].
    destruct ps as [|pr ps]; [done|]. injection Hurls as Hu Hurls.
    apply Forall_cons in Hcc as [[now Hpr] Hcc].
    unfold cve_hits in *. simpl. rewrite (IH ps Hurls Hcc). f_equal.
    unfold cve_hit, expected_cve. simpl.
    rewrite Hpr, Hu, robust_get_time by done. done.
  - rewrite Hres.
    assert (Hg : flat_map probe_hit (wprobes (probes s))
                 = flat_map (λ u, match answer (timeout sc) u with
                                  | Returns resp => hit u resp
                                  | Raises _ => []
                                  end) (pr_url <$> wprobes (probes s))).
    { clear -Hcw Ht. induction Hcw as [|pr l [now Hpr] _ IH]; [done|].
      simpl. rewrite IH. f_equal. unfold probe_hit.
      by rewrite Hpr, robust_get_time. }
    rewrite Hg, (Permutation_flat_map _ Hw). clear.
    induction COMMON_PATHS as [|p l IH]; [done|]. simpl. by rewrite IH.
Qed.


(** X12. Against a server whose answers do not depend on time the
    findings do not depend on the pool size or on the interleaving of the
    threads: when the CVE loop is over, [self.findings] is the initial
    list, then, in some order, the exposed-path finding of every common
    path answered with status 200, then the findings of the CVE entries
    in the order of the table. *)
Theorem findings_do_not_depend_on_schedule
    (sc : scanner) (fs : gmap string string) (s : state) :
  time_independent → reachable sc fs s → cve_done s = true →
  ∃ P,
    findings (self s) = findings sc ++ P ++ flat_map (expected_cve sc) CVE_PATHS ∧
    P ≡ₚ flat_map (expected_path sc) COMMON_PATHS.
Proof. apply findings_when_done. Qed.

Lemma expected_path_config (sc sc' : scanner) (p : string) :
  target sc' = target sc → timeout sc' = timeout sc →
  expected_path sc' p = expected_path sc p.
Proof. intros Ht Hm. unfold expected_path. by rewrite Ht, Hm. Qed.

Lemma expected_cve_config (sc sc' : scanner) (e : string * cve_meta) :
  target sc' = target sc → timeout sc' = timeout sc →
  expected_cve sc' e = expected_cve sc e.
Proof. intros Ht Hm. unfold expected_cve. by rewrite Ht, Hm. Qed.

(** X15. [run] never empties [self.findings]: a second [run] on the same
    scanner object keeps what the first one found and appends its own
    findings after them, so against a server whose answers do not depend
    on time every finding is then held, and exported, twice. *)
Theorem second_run_duplicates_findings
    (sc : scanner) (fs fs' : gmap string string) (s1 s2 : state) :
  time_independent →
  reachable sc fs s1 → cve_done s1 = true →
  reachable (self s1) fs' s2 → cve_done s2 = true →
  ∃ P1 P2,
    findings (self s2)
    = findings sc ++ (P1 ++ flat_map (expected_cve sc) CVE_PATHS)
      ++ (P2 ++ flat_map (expected_cve sc) CVE_PATHS) ∧
    P1 ≡ₚ flat_map (expected_path sc) COMMON_PATHS ∧
    P2 ≡ₚ flat_map (expected_path sc) COMMON_PATHS.
Proof.
  intros Ht Hr1 Hd1 Hr2 Hd2.
  destruct (findings_when_done sc fs s1 Ht Hr1 Hd1) as (P1 & Hf1 & HP1).
  destruct (findings_when_done (self s1) fs' s2 Ht Hr2 Hd2) as (P2 & Hf2 & HP2).
  destruct (reachable_inv _ _ _ sc fs s1 Hr1) as [(Htgt & Htmo & _ & _) _].
  rewrite (flat_map_ext _ _ (λ e, expected_cve_config sc (self s1) e Htgt Htmo)) in Hf2.
  rewrite (flat_map_ext _ _ (λ p, expected_path_config sc (self s1) p Htgt Htmo)) in HP2.
  exists P1, P2. split_and!; [|done|done].
  rewrite Hf2, Hf1. by rewrite <-!app_assoc.
Qed.

(** ** The claims about the worker pool and about the order of the phases *)



End MoreOnRun.

(** ** More on the target and on the exported text *)

Lemma replicate_app (m n : nat) (c : ascii) :
  PyStr.replicate (m + n) c = PyStr.replicate m c +:+ PyStr.replicate n c.
Proof.
  induction m as [|m IH]; [done|]. simpl PyStr.replicate.
  by rewrite PyStr.app_cons, IH.
Qed.

(** X13. Trailing slashes of the target do not matter: a target and the
    same target followed by any number of slashes give the same scanner
    object, and a target made of slashes only gives the empty target, so
    that the requests then go to the bare paths. *)
Theorem trailing_slashes_do_not_matter
    (tgt : string) (n : nat) (tmo thr : Z) (out : option string) :
  WebVulnScanner_init (tgt +:+ PyStr.replicate n "/") tmo thr out
  = WebVulnScanner_init tgt tmo thr out ∧
  target (WebVulnScanner_init (PyStr.replicate n "/") tmo thr out) = "".
Proof.
  unfold WebVulnScanner_init. simpl. split; [|by rewrite PyStr.rstrip_replicate].
  f_equal. destruct (PyStr.rstrip_decompose "/" tgt) as [m Hm].
  rewrite Hm at 1. rewrite PyStr.app_assoc, <-replicate_app.
  apply PyStr.rstrip_unique, PyStr.rstrip_last.
Qed.

(** A character that any text encoding writes as it is: a line feed or a
    printable ASCII character. *)
Definition plain (c : ascii) : bool :=
  let n := N_of_ascii c in
  (n =? 10)%N || ((32 <=? n)%N && (n <=? 126)%N).

Fixpoint all_plain (s : string) : bool :=
  match s with
  | EmptyString => true
  | String c s' => plain c && all_plain s'
  end.

Lemma all_plain_app (a b : string) :
  all_plain (a +:+ b) = all_plain a && all_plain b.
Proof.
  induction a as [|c a IH]; [done|]. rewrite PyStr.app_cons. simpl.
  by rewrite IH, andb_assoc.
Qed.

Lemma escape_char_plain (c : ascii) : all_plain (Json.escape_char c) = true.
Proof. destruct c as [[] [] [] [] [] [] [] []]; reflexivity. Qed.

Lemma encode_string_plain (s : string) : all_plain (Json.encode_string s) = true.
Proof.
  unfold Json.encode_string. simpl. rewrite all_plain_app. simpl.
  rewrite andb_true_r. induction s as [|c s IH]; [done|]. simpl.
  by rewrite all_plain_app, escape_char_plain, IH.
Qed.

Lemma newline_indent_plain (level : nat) :
  all_plain (Json.newline_indent level) = true.
Proof.
  unfold Json.newline_indent.
  change (all_plain (PyStr.replicate (2 * level) Json.space) = true).
  induction (2 * level) as [|n IH]; [done|]. exact IH.
Qed.

Lemma dict_text_plain (level : nat) (d : pydict) :
  all_plain (Json.dict_text level d) = true.
Proof.
  assert (H : ∀ d, all_plain (Json.members_text level d) = true).
  { clear d. induction d as [|kv d IH]; cbn [Json.members_text].
    - by rewrite all_plain_app, newline_indent_plain.
    - by rewrite !all_plain_app, newline_indent_plain, !encode_string_plain, IH. }
  destruct d as [|kv d]; [done|]. cbn [Json.dict_text].
  by rewrite !all_plain_app, newline_indent_plain, !encode_string_plain, H.
Qed.

(** X14. The text that [json.dump] writes for a findings list is plain
    ASCII whatever the strings in the findings are: it holds line feeds
    and printable ASCII characters only, every other character being
    written as an escape. *)
Theorem exported_text_is_plain_ascii (fs : list pydict) :
  all_plain (Json.dumps (Json.of_findings fs)) = true.
Proof.
  rewrite Json.dumps_of_findings.
  assert (H : ∀ level fs, all_plain (Json.items_text level fs) = true).
  { clear fs. intros level fs. induction fs as [|d fs IH]; cbn [Json.items_text].
    - by rewrite all_plain_app, newline_indent_plain.
    - by rewrite !all_plain_app, newline_indent_plain, dict_text_plain, IH. }
  destruct fs as [|d fs]; [done|]. cbn [Json.findings_text].
  by rewrite !all_plain_app, newline_indent_plain, dict_text_plain, H.
Qed.

(** ** More runs on the small site *)

(** The number of steps a schedule makes. *)
Fixpoint count_steps (requests_get : nat → string → Z → completion Response)
    (open_w : string → option exn) (repr : pydict → string)
    (cs : list choice) (s : state) : nat :=
  match cs with
  | [] => 0
  | c :: cs' =>
      match sched_step requests_get open_w repr c s with
      | Some s' => S (count_steps requests_get open_w repr cs' s')
      | None => count_steps requests_get open_w repr cs' s
      end
  end.

Lemma run_schedule_nsteps (requests_get : nat → string → Z → completion Response)
    (open_w : string → option exn) (repr : pydict → string)
    (cs : list choice) (s : state) :
  nsteps (step requests_get open_w repr)
    (count_steps requests_get open_w repr cs s) s
    (run_schedule requests_get open_w repr cs s).
Proof.
  revert s. induction cs as [|c cs IH]; intros s; simpl; [constructor|].
  destruct (sched_step requests_get open_w repr c s) as [s'|] eqn:E; simpl.
  - eapply nsteps_l; [|apply IH]. destruct c; [by left|right; by eexists].
  - apply IH.
Qed.

Lemma demo_final_stuck : stuck demo_get demo_open demo_repr demo_final.
Proof.
  intros s' [H|[i H]].
  - vm_compute in H. discriminate H.
  - rewrite worker_step_exit in H; [done|]. vm_compute. by repeat constructor.
Qed.

Lemma demo_get_only_request_exceptions : only_request_exceptions demo_get.
Proof.
  intros now url tmo e. unfold demo_get. by repeat case_bool_decide.
Qed.

Lemma demo_get_time_independent : time_independent demo_get.
Proof. by intros n m url tmo. Qed.

(** An HTTP client that fails with an exception [robust_get] does not
    catch, and a scan with two workers up to the death of the first. *)
Definition demo_get_broken (now : nat) (url : string) (tmo : Z)
  : completion Response :=
  Raises (OtherException "timeout must be positive").

Definition demo_dead : state :=
  run_schedule demo_get_broken demo_open demo_repr
    [Main; Main; Main; Main; Worker 0; Worker 0]
    (init_state (WebVulnScanner_init "http://t/" 0 2 None) ∅).

Definition demo_dead_later : state :=
  run_schedule demo_get_broken demo_open demo_repr demo_schedule demo_dead.




(** A worker about to call [task_done]. *)
Definition demo_at_task_done : state :=
  run_schedule demo_get demo_open demo_repr
    [Main; Main; Main; Main; Worker 0; Worker 0; Worker 0]
    (init_state demo_scanner ∅).

(** The scan of the small site when the output file cannot be opened. *)
Definition demo_open_fails (name : string) : option exn :=
  Some (OtherException "Permission denied").

Definition demo_final_unsaved : state :=
  run_schedule demo_get demo_open_fails demo_repr demo_schedule
    (init_state demo_scanner ∅).





Lemma run_makes_boundedly_many_steps_witness :
  count_steps demo_get demo_open demo_repr demo_schedule (init_state demo_scanner ∅)
  ≤ 8 * Z.to_nat (threads demo_scanner) + 59.
Proof.
  apply (run_makes_boundedly_many_steps demo_get demo_open demo_repr
           demo_scanner ∅ _ demo_final).
  apply run_schedule_nsteps.
Defined.

Lemma no_threads_never_finishes_witness :
  (threads (WebVulnScanner_init "http://t/" 7 0 None) ≤ 0)%Z ∧
  phase1_over (demo_run 0) = false.
Proof.
  split; [by vm_compute|].
  apply (no_threads_never_finishes demo_get demo_open demo_repr
           (WebVulnScanner_init "http://t/" 7 0 None) ∅ (demo_run 0));
    [by vm_compute|apply run_schedule_reachable].
Defined.

Lemma dead_worker_blocks_the_pool_witness :
  workers demo_dead !! 0
  = Some (WDied "/admin" (OtherException "timeout must be positive")) ∧
  phase1_over demo_dead_later = false.
Proof.
  split; [vm_compute; reflexivity|].
  apply (dead_worker_blocks_the_pool demo_get_broken demo_open demo_repr
           (WebVulnScanner_init "http://t/" 0 2 None) ∅ demo_dead demo_dead_later
           0 "/admin" (OtherException "timeout must be positive"));
    [apply run_schedule_reachable|vm_compute; reflexivity
    |apply run_schedule_reachable].
Defined.

Lemma task_done_never_called_too_often_witness :
  workers demo_at_task_done !! 0 = Some (WTaskDone "/admin") ∧
  0 < unfinished_tasks demo_at_task_done.
Proof.
  split; [vm_compute; reflexivity|].
  apply (task_done_never_called_too_often demo_get demo_open demo_repr
           demo_scanner ∅ demo_at_task_done 0 "/admin");
    [apply run_schedule_reachable|vm_compute; reflexivity].
Defined.

Lemma run_hangs_only_in_queue_join_witness :
  run_over demo_final = true ∨
  (pc demo_final = MJoinQueue ∧ 0 < unfinished_tasks demo_final ∧
   (workers demo_final = [] ∨ wsum died (workers demo_final) ≠ [])).
Proof.
  apply (run_hangs_only_in_queue_join demo_get demo_open demo_repr
           demo_scanner ∅ demo_final);
    [exact demo_reachable|exact demo_final_stuck].
Defined.

Lemma run_returns_witness :
  (0 < threads demo_scanner)%Z ∧ pc demo_final = MDone.
Proof.
  split; [reflexivity|].
  apply (run_returns demo_get demo_open demo_repr demo_scanner ∅ demo_final);
    [reflexivity|exact demo_get_only_request_exceptions|reflexivity
    |exact demo_reachable|exact demo_final_stuck].
Defined.

Lemma run_writes_only_the_output_file_witness :
  files demo_final =
    if export_done demo_final && PyStr.truthy (integration_output demo_scanner)
    then <[default "" (integration_output demo_scanner)
           := Json.dumps (Json.of_findings (findings (self demo_final)))]> ∅
    else ∅.
Proof.
  apply (run_writes_only_the_output_file demo_get demo_open demo_repr
           demo_scanner ∅ demo_final).
  exact demo_reachable.
Defined.

Lemma export_failure_loses_the_report_witness :
  PyStr.truthy (integration_output demo_scanner) = true ∧
  demo_open_fails (default "" (integration_output demo_scanner))
  = Some (OtherException "Permission denied") ∧
  export_done demo_final_unsaved = false ∧
  files demo_final_unsaved = ∅ ∧
  pc demo_final_unsaved = MCrashed (OtherException "Permission denied") ∧
  length (probes demo_final_unsaved) = 12 ∧
  findings (self demo_final_unsaved)
  = findings demo_scanner ++ results demo_final_unsaved
    ++ cve_hits (zip CVE_PATHS (cprobes (probes demo_final_unsaved))).
Proof.
  destruct (export_failure_loses_the_report demo_get demo_open_fails demo_repr
              demo_scanner ∅ demo_final_unsaved (OtherException "Permission denied"))
    as (Hed & _ & Hf & _ & _ & Hnet);
    [reflexivity|reflexivity|apply run_schedule_reachable|].
  destruct (Hnet demo_get_only_request_exceptions) as (Hpc & Hall & _).
  pose proof (Hpc ltac:(vm_compute; reflexivity)) as Hc.
  destruct (Hall _ Hc) as (_ & Hn & _ & _ & _ & _ & Hfd).
  split; [reflexivity|]. split; [reflexivity|]. by split_and!.
Defined.

Lemma final_report_lists_the_findings_witness :
  pc demo_final = MDone ∧
  ∃ before,
    stdout demo_final
    = before ++ [""; "[Done] Vulnerability scanning complete."; "Findings:"]
      ++ map (λ f, "   " +:+ demo_repr f) (findings (self demo_final)).
Proof.
  split; [vm_compute; reflexivity|].
  apply (final_report_lists_the_findings demo_get demo_open demo_repr
           demo_scanner ∅ demo_final);
    [exact demo_reachable|vm_compute; reflexivity].
Defined.

Lemma one_request_per_task_witness :
  cve_done demo_final = true ∧ length (probes demo_final) = 12 ∧
  probes demo_final = wprobes (probes demo_final) ++ cprobes (probes demo_final) ∧
  pr_url <$> cprobes (probes demo_final)
  = cve_url (target demo_scanner) <$> CVE_PATHS.
Proof.
  split; [vm_compute; reflexivity|].
  destruct (one_request_per_task demo_get demo_open demo_repr demo_scanner ∅ demo_final)
    as (Hn & _ & Hc & Ho & _);
    [exact demo_reachable|vm_compute; reflexivity|].
  by split_and!.
Defined.

Lemma at_most_one_finding_per_task_witness :
  cve_done demo_final = true ∧
  ∃ P C,
    findings (self demo_final) = findings demo_scanner ++ P ++ C ∧
    getitem "url" <$> P
    ⊆+ (λ p, Some (target demo_scanner +:+ p)) <$> COMMON_PATHS ∧
    getitem "cve" <$> C `sublist_of` (λ e, Some e.1) <$> CVE_PATHS ∧
    length P + length C ≤ 12.
Proof.
  split; [vm_compute; reflexivity|].
  apply (at_most_one_finding_per_task demo_get demo_open demo_repr
           demo_scanner ∅ demo_final);
    [exact demo_reachable|vm_compute; reflexivity].
Defined.

Lemma findings_do_not_depend_on_schedule_witness :
  cve_done demo_final = true ∧
  ∃ P,
    findings (self demo_final)
    = findings demo_scanner ++ P
      ++ flat_map (expected_cve demo_get demo_scanner) CVE_PATHS ∧
    P ≡ₚ flat_map (expected_path demo_get demo_scanner) COMMON_PATHS.
Proof.
  split; [vm_compute; reflexivity|].
  apply (findings_do_not_depend_on_schedule demo_get demo_open demo_repr
           demo_scanner ∅ demo_final);
    [exact demo_get_time_independent|exact demo_reachable|vm_compute; reflexivity].
Defined.

(** The small site scanned a second time with the same scanner object. *)
Definition demo_second : state :=
  run_schedule demo_get demo_open demo_repr demo_schedule
    (init_state (self demo_final) ∅).

Lemma second_run_duplicates_findings_witness :
  cve_done demo_final = true ∧ cve_done demo_second = true ∧
  ∃ P1 P2,
    findings (self demo_second)
    = findings demo_scanner
      ++ (P1 ++ flat_map (expected_cve demo_get demo_scanner) CVE_PATHS)
      ++ (P2 ++ flat_map (expected_cve demo_get demo_scanner) CVE_PATHS) ∧
    P1 ≡ₚ flat_map (expected_path demo_get demo_scanner) COMMON_PATHS ∧
    P2 ≡ₚ flat_map (expected_path demo_get demo_scanner) COMMON_PATHS.
Proof.
  split; [vm_compute; reflexivity|]. split; [vm_compute; reflexivity|].
  apply (second_run_duplicates_findings demo_get demo_open demo_repr
           demo_scanner ∅ ∅ demo_final demo_second);
    [exact demo_get_time_independent|exact demo_reachable|vm_compute; reflexivity
    |apply run_schedule_reachable|vm_compute; reflexivity].
Defined.

Example demo_second_findings :
  length (findings (self demo_second)) = 4.
Proof. vm_compute. reflexivity. Qed.
